(** * claude-simple-memory: the relevance-ranking engine of [plugin/scripts/utils.js]

    A shallow embedding of the tokenizer, the TF-IDF indexer, the cosine
    scorer and the relevance ranker, followed by the properties the
    specification states about them.

    Conventions of the embedding.
    - A JavaScript string is the list of its UTF-16 code units ([jsstring]).
    - A finite double is idealised as a real number; [NaN] is kept apart,
      because it changes both control flow ([NaN < 24], [NaN === 0],
      [NaN || 0]) and results.  Infinities and signed zeros are not
      represented: on the paths embedded here they could only come from a
      zero divisor, and every divisor is a positive constant, is at least 1,
      or is guarded by the caller.  The rounding of each operation, overflow
      and underflow are not represented either.  An equation between a
      result and an arithmetic expression is therefore to be read operation
      by operation, as the expression the code evaluates; and what is
      stated of a similarity or of a score is limited to what rounding
      keeps: being NaN or a number, being exactly 0 because every term is
      0, not being negative, and the bound 1 that [Math.min] sets.  The
      exact value of a rounded quotient (a cosine being exactly 1, or at
      most 1), [Math.exp] being non-zero and the order of a summation are
      not relied upon in those statements.
    - An object literal [{}] used as a dictionary is the insertion-ordered
      list of its own properties, looked up through [Object.prototype] when
      the key is not an own property, exactly as [obj[key]] does.
    - [Date.now()] is an input ([now], in milliseconds); a session's [date]
      field is held as the time value [new Date(date).getTime()] yields,
      [None] standing for a missing or unparseable date (time value NaN).
    - Session records live in a heap and are passed by reference. *)

From Stdlib Require Import List NArith ZArith Bool String Ascii.
From Stdlib Require Import Reals Lra Lia Permutation.
Import ListNotations.


(* ================================================================= *)
(** ** Strings *)

Definition jsstring := list N.

(** A literal of the Basic Latin block. *)
Definition str (s : string) : jsstring :=
  List.map N_of_ascii (list_ascii_of_string s).

Definition str_eqb (a b : jsstring) : bool :=
  if list_eq_dec N.eq_dec a b then true else false.

(** The [length] property. *)
Definition len (s : jsstring) : nat := List.length s.

Definition between (lo hi c : N) : bool := (lo <=? c)%N && (c <=? hi)%N.

(** [\d], [A-Z], [a-z], [\w], [\s] and [가-힣] on one code unit. *)
Definition is_digit (c : N) : bool := between 48 57 c.
Definition is_upper (c : N) : bool := between 65 90 c.
Definition is_lower (c : N) : bool := between 97 122 c.
Definition is_word (c : N) : bool :=
  is_digit c || is_upper c || is_lower c || (c =? 95)%N.
Definition is_space (c : N) : bool :=
  between 9 13 c || (c =? 32)%N || (c =? 160)%N || (c =? 5760)%N
  || between 8192 8202 c || (c =? 8232)%N || (c =? 8233)%N
  || (c =? 8239)%N || (c =? 8287)%N || (c =? 12288)%N || (c =? 65279)%N.
Definition is_hangul (c : N) : bool := between 44032 55203 c.

Definition SPACE : N := 32.
Definition SLASH : N := 47.
Definition BACKSLASH : N := 92.
Definition DOT : N := 46.

(** [String.prototype.toLowerCase], on the Basic Latin block; code units
    outside it are left as they are. *)
Definition toLowerCase (s : jsstring) : jsstring :=
  List.map (fun c => if is_upper c then (c + 32)%N else c) s.

(** [s.replace(/\s+/g, ' ')]: [in_run] tells that the previous code unit
    was white space already replaced. *)
Fixpoint collapse_spaces (in_run : bool) (s : jsstring) : jsstring :=
  match s with
  | [] => []
  | c :: r =>
      if is_space c
      then if in_run then collapse_spaces true r
           else SPACE :: collapse_spaces true r
      else c :: collapse_spaces false r
  end.

Fixpoint drop_spaces (s : jsstring) : jsstring :=
  match s with
  | [] => []
  | c :: r => if is_space c then drop_spaces r else s
  end.

(** [s.trim()]. *)
Definition trim (s : jsstring) : jsstring :=
  rev (drop_spaces (rev (drop_spaces s))).

(** [s.split(sep)] for a one-unit separator; the empty string gives one empty piece. *)
Fixpoint split_on (sep : N) (s : jsstring) : list jsstring :=
  match s with
  | [] => [[]]
  | c :: r =>
      if (c =? sep)%N then [] :: split_on sep r
      else match split_on sep r with
           | w :: ws => (c :: w) :: ws
           | [] => [[c]]
           end
  end.

(** [/^\d+$/.test(word)]. *)
Definition all_digits (w : jsstring) : bool :=
  negb (Nat.eqb (len w) 0) && forallb is_digit w.

(* ================================================================= *)
(** ** Tokenizer *)

Definition STOPWORDS : list jsstring :=
  List.map str
    [ "the"; "a"; "an"; "is"; "are"; "was"; "were"; "be"; "been"; "being";
      "have"; "has"; "had"; "do"; "does"; "did"; "will"; "would"; "could";
      "should"; "may"; "might"; "must"; "shall"; "can"; "need"; "dare";
      "ought"; "used"; "to"; "of"; "in"; "for"; "on"; "with"; "at"; "by";
      "from"; "as"; "into"; "through"; "during"; "before"; "after"; "above";
      "below"; "between"; "and"; "but"; "or"; "nor"; "so"; "yet"; "both";
      "either"; "neither"; "not"; "only"; "own"; "same"; "than"; "too";
      "very"; "just"; "this"; "that"; "these"; "those"; "it"; "its" ]%string
  ++ [ [51060]; [44536]; [51200]; [44163]; [49688]; [46321]; [46308];
       [48143]; [50640]; [51032]; [47484]; [51012]; [51008]; [45716];
       [51060]; [44032]; [50752]; [44284]; [47196]; [51004; 47196];
       [50640; 49436]; [44620; 51648]; [48512; 53552] ]%N
  ++ List.map str
    [ "const"; "let"; "var"; "function"; "return"; "import"; "export";
      "from"; "true"; "false"; "null"; "undefined"; "new"; "class";
      "extends"; "async"; "await"; "try"; "catch"; "if"; "else"; "for";
      "while" ]%string.

(** [STOPWORDS.has(w)]. *)
Definition is_stopword (w : jsstring) : bool := existsb (str_eqb w) STOPWORDS.

(** [text] is [None] for [undefined]/[null]; the empty string is falsy too. *)
Definition extractKeywords (text : option jsstring) : list jsstring :=
  match text with
  | None | Some [] => []
  | Some t =>
      let normalized :=
        trim
          (collapse_spaces false
             (List.map
                (fun c => if is_word c || is_space c || is_hangul c
                          then c else SPACE)
                (toLowerCase t))) in
      let words := split_on SPACE normalized in
      filter
        (fun word =>
           if (len word <? 2)%nat then false
           else if is_stopword word then false
           else if all_digits word then false
           else true)
        words
  end.

(** [part.replace(/\.[^.]+$/, '')]: the match, if any, starts at the last
    dot, provided something follows it. *)
Fixpoint strip_extension (s : jsstring) : jsstring :=
  match s with
  | [] => []
  | c :: r =>
      if (c =? DOT)%N && negb (Nat.eqb (len r) 0)
         && forallb (fun d => negb (d =? DOT)%N) r
      then []
      else c :: strip_extension r
  end.

(** [part.replace(/([a-z])([A-Z])/g, '$1 $2')]. *)
Fixpoint camel_split (s : jsstring) : jsstring :=
  match s with
  | a :: ((b :: r') as r) =>
      if is_lower a && is_upper b
      then a :: SPACE :: b :: camel_split r'
      else a :: camel_split r
  | _ => s
  end.

Definition is_separator (c : N) : bool :=
  (c =? 45)%N || (c =? 95)%N || is_space c.

(** [s.split(/[-_\s]+/)]: [in_sep] tells that the previous code unit
    belonged to the separator being consumed. *)
Fixpoint split_separators (in_sep : bool) (s : jsstring) : list jsstring :=
  match s with
  | [] => [[]]
  | c :: r =>
      if is_separator c
      then if in_sep then split_separators true r
           else [] :: split_separators true r
      else match split_separators false r with
           | w :: ws => (c :: w) :: ws
           | [] => [[c]]
           end
  end.

Definition path_word_ok (w : jsstring) : bool :=
  (1 <? len w)%nat && negb (is_stopword w).

Definition extractPathKeywords (filePath : option jsstring) : list jsstring :=
  match filePath with
  | None | Some [] => []
  | Some p =>
      let parts :=
        filter
          (fun part => (1 <? len part)%nat)
          (List.map strip_extension
             (split_on SLASH
                (List.map (fun c => if (c =? BACKSLASH)%N then SLASH else c) p)))
      in
      flat_map
        (fun part =>
           let camelSplit := toLowerCase (camel_split part) in
           let words := split_separators false camelSplit in
           filter path_word_ok words)
        parts
  end.

(* ================================================================= *)
(** ** Numbers and other values *)

Local Open Scope R_scope.

(** The values these functions handle.  [Junk] stands for any function,
    object or non-numeric string: it is truthy, [ToNumber] maps it to NaN,
    and [+] with it concatenates strings, which gives such a string again. *)
Inductive value : Type :=
| Num (r : R)
| NaN
| Junk
| Undefined.

Definition toNumber (v : value) : value :=
  match v with
  | Num r => Num r
  | _ => NaN
  end.

(** [x || 0]: [0], [NaN] and [undefined] are falsy. *)
Definition or_zero (x : value) : value :=
  match x with
  | Num r => Num r
  | Junk => Junk
  | NaN | Undefined => Num 0
  end.

(** [a + b]. *)
Definition js_add (a b : value) : value :=
  match a, b with
  | Junk, _ | _, Junk => Junk
  | Num x, Num y => Num (x + y)
  | _, _ => NaN
  end.

Definition js_sub (a b : value) : value :=
  match toNumber a, toNumber b with
  | Num x, Num y => Num (x - y)
  | _, _ => NaN
  end.

Definition js_mul (a b : value) : value :=
  match toNumber a, toNumber b with
  | Num x, Num y => Num (x * y)
  | _, _ => NaN
  end.

(** [a / b].  A zero divisor (an infinity in JavaScript, NaN for [0/0])
    is outside the number model; it yields [NaN] here and no caller below
    reaches it. *)
Definition js_div (a b : value) : value :=
  match toNumber a, toNumber b with
  | Num x, Num y => if Req_dec_T y 0 then NaN else Num (x / y)
  | _, _ => NaN
  end.

Definition js_neg (a : value) : value :=
  match toNumber a with
  | Num x => Num (- x)
  | _ => NaN
  end.

(** [Math.log]; the argument 0 (minus infinity in JavaScript) is outside
    the number model. *)
Definition js_log (a : value) : value :=
  match toNumber a with
  | Num x => if Rlt_dec 0 x then Num (ln x) else NaN
  | _ => NaN
  end.

(** [Math.exp]; over the doubles the result underflows to 0 below about
    -745, which the real exponential never does. *)
Definition js_exp (a : value) : value :=
  match toNumber a with
  | Num x => Num (exp x)
  | _ => NaN
  end.

Definition js_sqrt (a : value) : value :=
  match toNumber a with
  | Num x => if Rlt_dec x 0 then NaN else Num (sqrt x)
  | _ => NaN
  end.

(** [Math.max(a, b)] and [Math.min(a, b)]: NaN as soon as one argument
    converts to NaN. *)
Definition js_max (a b : value) : value :=
  match toNumber a, toNumber b with
  | Num x, Num y => Num (Rmax x y)
  | _, _ => NaN
  end.

Definition js_min (a b : value) : value :=
  match toNumber a, toNumber b with
  | Num x, Num y => Num (Rmin x y)
  | _, _ => NaN
  end.

(** [a < b]: false when an operand is NaN. *)
Definition js_lt (a b : value) : bool :=
  match toNumber a, toNumber b with
  | Num x, Num y => if Rlt_dec x y then true else false
  | _, _ => false
  end.

(** [a === 0]. *)
Definition js_is_zero (a : value) : bool :=
  match a with
  | Num x => if Req_dec_T x 0 then true else false
  | _ => false
  end.

(* ================================================================= *)
(** ** Objects used as dictionaries *)

(** Own enumerable properties in insertion order.  (Integer-like keys are
    enumerated first by JavaScript; the enumeration order only decides the
    order of summation, which does not matter for real numbers and NaN.) *)
Definition object := list (jsstring * value).

Definition keys (o : object) : list jsstring := List.map fst o.
Definition values (o : object) : list value := List.map snd o.

Fixpoint own (o : object) (k : jsstring) : option value :=
  match o with
  | [] => None
  | (k', v) :: r => if str_eqb k' k then Some v else own r k
  end.

(** The property names of [Object.prototype]. *)
Definition objectPrototype : list jsstring :=
  List.map str
    [ "constructor"; "__defineGetter__"; "__defineSetter__";
      "hasOwnProperty"; "__lookupGetter__"; "__lookupSetter__";
      "isPrototypeOf"; "propertyIsEnumerable"; "toString"; "valueOf";
      "__proto__"; "toLocaleString" ]%string.

Definition inherited (k : jsstring) : bool := existsb (str_eqb k) objectPrototype.

(** [o[k]]: the own property, else what [Object.prototype] holds under
    that name (a function, or the prototype object for [__proto__]), else
    [undefined]. *)
Definition get (o : object) (k : jsstring) : value :=
  match own o k with
  | Some v => v
  | None => if inherited k then Junk else Undefined
  end.

Fixpoint put_own (o : object) (k : jsstring) (v : value) : object :=
  match o with
  | [] => [(k, v)]
  | (k', v') :: r =>
      if str_eqb k' k then (k', v) :: r else (k', v') :: put_own r k v
  end.

(** [o[k] = v] for a primitive [v], which is all this file ever stores:
    the [__proto__] setter ignores a primitive, any other name becomes or
    stays an own property. *)
Definition set (o : object) (k : jsstring) (v : value) : object :=
  if str_eqb k (str "__proto__") then o else put_own o k v.

(** Iteration order of [new Set(xs)]: first occurrences. *)
Fixpoint unique (xs : list jsstring) : list jsstring :=
  match xs with
  | [] => []
  | x :: r => x :: filter (fun y => negb (str_eqb x y)) (unique r)
  end.

(* ================================================================= *)
(** ** TF-IDF indexer *)

Definition increment (o : object) (word : jsstring) : object :=
  set o word (js_add (or_zero (get o word)) (Num 1)).

Definition calculateTF (keywords : list jsstring) : object :=
  let tf := fold_left increment keywords [] in
  let maxFreq := fold_right js_max (Num 1) (values tf) in
  fold_left
    (fun tf word => set tf word (js_div (get tf word) maxFreq))
    (keys tf) tf.

Definition calculateDF (documents : list (list jsstring)) : object :=
  fold_left
    (fun df doc =>
       let uniqueWords := unique doc in
       fold_left increment uniqueWords df)
    documents [].

Definition calculateTFIDF
    (keywords : list jsstring) (df : object) (totalDocs : nat) : object :=
  let tf := calculateTF keywords in
  fold_left
    (fun tfidf word =>
       let idf :=
         js_add
           (js_log (js_div (js_add (Num (INR totalDocs)) (Num 1))
                           (js_add (or_zero (get df word)) (Num 1))))
           (Num 1) in
       set tfidf word (js_mul (get tf word) idf))
    (keys tf) [].

(* ================================================================= *)
(** ** Similarity scorer *)

(** The sums run over the union of the keys, in the order of the keys of
    [vec1] followed by the new keys of [vec2]. *)
Definition cosineSimilarity (vec1 vec2 : object) : value :=
  let allWords := unique (keys vec1 ++ keys vec2) in
  let '(dotProduct, norm1, norm2) :=
    fold_left
      (fun '(dotProduct, norm1, norm2) word =>
         let v1 := or_zero (get vec1 word) in
         let v2 := or_zero (get vec2 word) in
         (js_add dotProduct (js_mul v1 v2),
          js_add norm1 (js_mul v1 v1),
          js_add norm2 (js_mul v2 v2)))
      allWords (Num 0, Num 0, Num 0) in
  if js_is_zero norm1 || js_is_zero norm2 then Num 0
  else js_div dotProduct (js_mul (js_sqrt norm1) (js_sqrt norm2)).

(* ================================================================= *)
(** ** Session records, the heap and the ranking context *)

Record Conversation := { message : option jsstring }.

Record Details := { file : option jsstring; command : option jsstring }.

Record ObsContext := { lastUserMessage : option jsstring }.

Record Observation := {
  obs_summary : option jsstring;
  details : option Details;
  context : option ObsContext
}.

(** [date] is the time value of [new Date(session.date)] in milliseconds,
    [None] when the field is missing or does not parse. *)
Record Session := {
  summary : option jsstring;
  conversations : option (list Conversation);
  observations : option (list Observation);
  date : option Z
}.

Record Context := {
  cwd : option jsstring;
  recentFiles : option (list jsstring)
}.

(** Truthiness of a string-valued field. *)
Definition truthy (s : option jsstring) : bool :=
  match s with
  | Some (_ :: _) => true
  | _ => false
  end.

Definition extractSessionKeywords (session : Session) : list jsstring :=
  (if truthy (summary session) then extractKeywords (summary session) else [])
  ++ (match conversations session with
      | Some ((_ :: _) as convs) =>
          flat_map
            (fun conv =>
               if truthy (message conv) then extractKeywords (message conv)
               else [])
            convs
      | _ => []
      end)
  ++ (match observations session with
      | Some obss =>
          flat_map
            (fun obs =>
               extractKeywords (obs_summary obs)
               ++ (match details obs with
                   | Some d =>
                       (if truthy (file d) then extractPathKeywords (file d)
                        else [])
                       ++ (if truthy (command d)
                           then extractKeywords (command d) else [])
                   | None => []
                   end)
               ++ (match context obs with
                   | Some c =>
                       if truthy (lastUserMessage c)
                       then extractKeywords (lastUserMessage c) else []
                   | None => []
                   end))
            obss
      | None => []
      end).

(** Session records are objects: the corpus is an array of references
    into a heap, and every function that is handed a session may read and,
    as far as the language goes, write it. *)
Definition ref := nat.
Definition heap := ref -> Session.

Definition M (A : Type) : Type := heap -> A * heap.

Definition ret {A} (a : A) : M A := fun h => (a, h).

Definition bind {A B} (m : M A) (k : A -> M B) : M B :=
  fun h => let '(a, h') := m h in k a h'.

Notation "x <- m ;; k" := (bind m (fun x => k))
  (at level 61, m at next level, right associativity).

Definition read (s : ref) : M Session := fun h => (h s, h).

(** [xs.map((x, index) => f(x, index))], the callbacks run in order. *)
Fixpoint mapM_from {A B} (index : nat) (f : A -> nat -> M B) (xs : list A)
  : M (list B) :=
  match xs with
  | [] => ret []
  | x :: r =>
      y <- f x index ;;
      ys <- mapM_from (S index) f r ;;
      ret (y :: ys)
  end.

Definition mapM {A B} (f : A -> nat -> M B) (xs : list A) : M (list B) :=
  mapM_from 0 f xs.

(* ================================================================= *)
(** ** Relevance ranker *)

Record Scored := {
  session : ref;
  similarity : value;
  timeWeight : value;
  conversationBonus : value;
  score : value
}.

Definition getTime (d : option Z) : value :=
  match d with
  | Some t => Num (IZR t)
  | None => NaN
  end.

Definition computeTimeWeight (now : Z) (d : option Z) : value :=
  let daysSinceSession :=
    js_div (js_sub (Num (IZR now)) (getTime d)) (Num (1000 * 60 * 60 * 24)) in
  let hoursSinceSession :=
    js_div (js_sub (Num (IZR now)) (getTime d)) (Num (1000 * 60 * 60)) in
  if js_lt hoursSinceSession (Num 24)
  then js_sub (Num 1) (js_div hoursSinceSession (Num 48))
  else js_exp (js_div (js_neg daysSinceSession) (Num 14)).

Definition hasConversations (s : Session) : bool :=
  match conversations s with
  | Some (_ :: _) => true
  | _ => false
  end.

(** [similarity * 0.4 + timeWeight * 0.45 + conversationBonus], added from
    the left; each sum is rounded in the program, so that the bonus is
    added to the rounded sum of the first two terms. *)
Definition finalScore (similarity timeWeight conversationBonus : value) : value :=
  js_add
    (js_add (js_mul similarity (Num 0.4)) (js_mul timeWeight (Num 0.45)))
    conversationBonus.

(** The body of the callback of [sessions.map] that builds [scores]. *)
Definition scoreSession
    (now : Z) (contextTFIDF df : object) (totalDocs : nat)
    (sessionKeywordsList : list (list jsstring))
    (sref : ref) (s : Session) (index : nat) : Scored :=
  let sessionTFIDF :=
    calculateTFIDF (nth index sessionKeywordsList []) df totalDocs in
  let similarity := cosineSimilarity contextTFIDF sessionTFIDF in
  let timeWeight := computeTimeWeight now (date s) in
  let conversationBonus :=
    if hasConversations s then Num 0.15 else Num 0 in
  {| session := sref;
     similarity := similarity;
     timeWeight := timeWeight;
     conversationBonus := conversationBonus;
     score := js_min (finalScore similarity timeWeight conversationBonus)
                     (Num 1) |}.

(** The comparator [(a, b) => b.score - a.score]. *)
Definition compareScores (a b : Scored) : value := js_sub (score b) (score a).

(** [Array.prototype.sort] is stable, and a comparator result that is
    NaN counts as 0.  Whenever the comparator is consistent the sorted
    array is determined by these two facts alone; insertion from the right
    is one way to compute it. *)
Fixpoint insert (x : Scored) (l : list Scored) : list Scored :=
  match l with
  | [] => [x]
  | y :: r =>
      if js_lt (Num 0) (compareScores x y) then y :: insert x r
      else x :: y :: r
  end.

Definition sort (l : list Scored) : list Scored := fold_right insert [] l.

Definition contextKeywordsOf (currentContext : Context) : list jsstring :=
  (if truthy (cwd currentContext)
   then extractPathKeywords (cwd currentContext) else [])
  ++ (match recentFiles currentContext with
      | Some files => flat_map (fun f => extractPathKeywords (Some f)) files
      | None => []
      end).

(** The array [scores], before it is sorted. *)
Definition scoreSessions
    (now : Z) (currentContext : Context) (sessions : list ref)
  : M (list Scored) :=
  let contextKeywords := contextKeywordsOf currentContext in
  sessionKeywordsList <-
    mapM (fun s _ => session <- read s ;; ret (extractSessionKeywords session))
         sessions ;;
  let df := calculateDF (contextKeywords :: sessionKeywordsList) in
  let totalDocs := (List.length sessions + 1)%nat in
  let contextTFIDF := calculateTFIDF contextKeywords df totalDocs in
  mapM (fun s index =>
          session <- read s ;;
          ret (scoreSession now contextTFIDF df totalDocs
                            sessionKeywordsList s session index))
       sessions.

Definition calculateRelevanceScores
    (now : Z) (currentContext : Context) (sessions : list ref)
  : M (list Scored) :=
  match sessions with
  | [] => ret []
  | _ =>
      scores <- scoreSessions now currentContext sessions ;;
      ret (sort scores)
  end.

(* ================================================================= *)
(** ** Notions used in the statements *)

(** [xs.map((x, index) => f(x, index))] for a callback without effects. *)
Fixpoint map_from {A B} (index : nat) (f : A -> nat -> B) (xs : list A)
  : list B :=
  match xs with
  | [] => []
  | x :: r => f x index :: map_from (S index) f r
  end.

(** The array [scores] that [scoreSessions] builds when the heap is [h]. *)
Definition scoresArray
    (now : Z) (currentContext : Context) (h : heap) (sessions : list ref)
  : list Scored :=
  let contextKeywords := contextKeywordsOf currentContext in
  let sessionKeywordsList :=
    List.map (fun s => extractSessionKeywords (h s)) sessions in
  let df := calculateDF (contextKeywords :: sessionKeywordsList) in
  let totalDocs := (List.length sessions + 1)%nat in
  let contextTFIDF := calculateTFIDF contextKeywords df totalDocs in
  map_from 0
    (fun s index =>
       scoreSession now contextTFIDF df totalDocs sessionKeywordsList
                    s (h s) index)
    sessions.

(** [a.score >= b.score], which is false when either score is NaN. *)
Definition score_ge (a b : Scored) : Prop :=
  exists x y, score a = Num x /\ score b = Num y /\ y <= x.

(** Every element's score is at least the score of the element after it. *)
Fixpoint descending (l : list Scored) : Prop :=
  match l with
  | a :: ((b :: _) as r) => score_ge a b /\ descending r
  | _ => True
  end.

Definition has_score (v : R) (x : Scored) : bool :=
  match score x with
  | Num r => if Req_dec_T r v then true else false
  | _ => false
  end.

(** Elements with equal scores come out in the order they went in. *)
Definition ties_keep_order (input output : list Scored) : Prop :=
  forall v, filter (has_score v) output = filter (has_score v) input.

(** The score before [Math.min(finalScore, 1.0)], recomputed from the
    components the scored element reports. *)
Definition preClampScore (x : Scored) : value :=
  finalScore (similarity x) (timeWeight x) (conversationBonus x).

Definition msPerHour : R := 3600000.

(** Hours between a session's time value [t] and the clock [now]. *)
Definition hoursSince (now t : Z) : R := (IZR now - IZR t) / msPerHour.

Definition scored_num (x : Scored) : Prop := exists r, score x = Num r.

Definition PROTO : jsstring := str "__proto__".
Definition CONSTRUCTOR : jsstring := str "constructor".

(** Number of occurrences of [w] in a token sequence. *)
Definition occ (w : jsstring) (kws : list jsstring) : nat :=
  List.length (filter (str_eqb w) kws).

(** A token that does not name a property of [Object.prototype]. *)
Definition clean (w : jsstring) : Prop := inherited w = false.

(** A token that names no property of [Object.prototype] other than
    [constructor] and [__proto__], the two names written in lower case. *)
Definition plain (w : jsstring) : Prop :=
  inherited w = true -> w = CONSTRUCTOR \/ w = PROTO.

(** The inverse document frequency [calculateTFIDF] gives a word. *)
Definition idf (df : object) (totalDocs : nat) (word : jsstring) : value :=
  js_add
    (js_log (js_div (js_add (Num (INR totalDocs)) (Num 1))
                    (js_add (or_zero (get df word)) (Num 1))))
    (Num 1).

(** The wellformedness every dictionary built here enjoys: no key twice,
    and never an own property called [__proto__]. *)
Definition wf (o : object) : Prop := NoDup (keys o) /\ ~ In PROTO (keys o).

(** What the counting loop of [calculateTF] leaves under [w]. *)
Definition counted (kws : list jsstring) (w : jsstring) : option value :=
  if str_eqb w PROTO then None
  else match occ w kws with
       | O => None
       | S n => Some (if inherited w then Junk else Num (INR (S n)))
       end.

(** [Math.max(...Object.values(tf), 1)] after the counting loop. *)
Definition maxFreqOf (kws : list jsstring) : value :=
  fold_right js_max (Num 1) (values (fold_left increment kws [])).

(** The accumulation [acc += (vec1[word] || 0) * (vec2[word] || 0)]. *)
Definition dotStep (vec1 vec2 : object) (acc : value) (word : jsstring) : value :=
  js_add acc (js_mul (or_zero (get vec1 word)) (or_zero (get vec2 word))).

(** The number [vec[word] || 0] when it is one. *)
Definition coord (vec : object) (word : jsstring) : R :=
  match or_zero (get vec word) with
  | Num a => a
  | _ => 0
  end.

Definition numeric (vec : object) (word : jsstring) : Prop :=
  exists a, or_zero (get vec word) = Num a.

Fixpoint rsum (f : jsstring -> R) (ws : list jsstring) : R :=
  match ws with
  | [] => 0
  | w :: r => f w + rsum f r
  end.

(** The words [cosineSimilarity] iterates over. *)
Definition allWordsOf (vec1 vec2 : object) : list jsstring :=
  unique (keys vec1 ++ keys vec2).

(** Real dot product of two vectors over the words of [ws]. *)
Definition dot (vec1 vec2 : object) (ws : list jsstring) : R :=
  rsum (fun w => coord vec1 w * coord vec2 w) ws.

(** No code unit in [A-Z]. *)
Definition lowercase (w : jsstring) : Prop :=
  Forall (fun c => is_upper c = false) w.

(* ================================================================= *)
(** ** Sample corpora *)

Definition ctx_auth : Context :=
  {| cwd := Some (str "/auth"); recentFiles := None |}.

(** A session with no summary and no observations. *)
Definition bareSession (d : option Z) (convs : option (list Conversation))
  : Session :=
  {| summary := None; conversations := convs; observations := None;
     date := d |}.

(** The heap holding the records of [l] at the addresses 0, 1, ... *)
Definition heap_of (l : list Session) : heap :=
  fun r => nth r l (bareSession None None).

Definition msPerDay : Z := 86400000.


Definition AUTH : jsstring := str "auth".

(* ================================================================= *)
(** ** Further notions used in the statements *)

(** A code unit of [[a-z0-9_]] or of the Hangul syllables: what a token
    of [extractKeywords] is made of. *)
Definition token_unit (c : N) : bool :=
  is_digit c || is_lower c || (c =? 95)%N || is_hangul c.

(** Number of documents in which [w] occurs. *)
Definition docFreq (w : jsstring) (documents : list (list jsstring)) : nat :=
  List.length (filter (fun doc => existsb (str_eqb w) doc) documents).

(** The entry [(w, v)] is an own property of [o]. *)
Definition entry (o : object) (w : jsstring) (v : value) : Prop :=
  In (w, v) o.

(** A dictionary none of whose keys names a property of
    [Object.prototype], with finite numbers as values. *)
Definition clean_vector (o : object) : Prop :=
  NoDup (keys o)
  /\ forall w v, In (w, v) o -> inherited w = false /\ exists a, v = Num a.

(** The number [idf] yields for a word, 0 when it yields none. *)
Definition idf_value (df : object) (totalDocs : nat) (word : jsstring) : R :=
  match idf df totalDocs word with
  | Num x => x
  | _ => 0
  end.

(* ================================================================= *)
(** ** The callers: [context-hook.js] and [summary-hook.js] *)

Definition MAX_SESSIONS_TO_SHOW : nat := 5.
Definition MIN_RELEVANCE_SCORE : value := Num 0.1.

(** [a >= b]: false when an operand is NaN. *)
Definition js_ge (a b : value) : bool :=
  match toNumber a, toNumber b with
  | Num x, Num y => if Rle_dec y x then true else false
  | _, _ => false
  end.

(** The selection [main] makes from the ranking: the elements at or above
    the threshold, five at most, and the first three of the ranking when
    no element passes. *)
Definition relevantSessionsOf (rankedSessions : list Scored) : list Scored :=
  let relevantSessions :=
    firstn MAX_SESSIONS_TO_SHOW
      (filter (fun item => js_ge (score item) MIN_RELEVANCE_SCORE)
              rankedSessions) in
  if Nat.eqb (List.length relevantSessions) 0
     && Nat.ltb 0 (List.length rankedSessions)
  then relevantSessions ++ firstn 3 rankedSessions
  else relevantSessions.

(** [Math.round]: the integer next below [x + 1/2]. *)
Definition js_round (a : value) : value :=
  match toNumber a with
  | Num x => Num (IZR (Int_part (x + 1 / 2)))
  | _ => NaN
  end.

(** [ToIntegerOrInfinity] of a finite number: truncation towards 0. *)
Definition toInteger (x : R) : Z :=
  if Rle_dec 0 x then Int_part x else (- Int_part (- x))%Z.

(** [s.repeat(count)]: NaN counts as 0; [None] stands for the RangeError
    a negative count raises. *)
Definition repeat_string (s : jsstring) (count : value) : option jsstring :=
  match toNumber count with
  | Num x =>
      if (toInteger x <? 0)%Z then None
      else Some (List.concat (repeat s (Z.to_nat (toInteger x))))
  | _ => Some []
  end.

Definition FILLED : jsstring := [9679%N].
Definition HOLLOW : jsstring := [9675%N].

Definition formatRelevanceBar (score : value) : option jsstring :=
  let filled := js_round (js_mul score (Num 5)) in
  match repeat_string FILLED filled,
        repeat_string HOLLOW (js_sub (Num 5) filled) with
  | Some a, Some b => Some (a ++ b)
  | _, _ => None
  end.

Module SummaryHook.

(** [extractSessionKeywords] of [summary-hook.js]: the keywords a session
    is stored with.  The [Set] keeps first occurrences in order. *)
Definition extractSessionKeywords
    (observations : option (list Observation))
    (conversations : option (list Conversation)) : list jsstring :=
  let fromConversations :=
    flat_map (fun c => extractKeywords (message c))
             (match conversations with Some l => l | None => [] end) in
  let fromObservations :=
    flat_map
      (fun o =>
         extractKeywords (obs_summary o)
         ++ (match details o with
             | Some d =>
                 (if truthy (file d) then extractPathKeywords (file d) else [])
                 ++ (if truthy (command d) then extractKeywords (command d)
                     else [])
             | None => []
             end))
      (match observations with Some l => l | None => [] end) in
  firstn 50 (unique (fromConversations ++ fromObservations)).

End SummaryHook.

(** ** Two runs of the tokenizers *)

Example extractKeywords_ex :
  extractKeywords (Some (str "Fixed the CSS layout bug, 42 times!"))
  = [str "fixed"; str "css"; str "layout"; str "bug"; str "times"].
Proof. vm_compute. reflexivity. Qed.

Example extractPathKeywords_ex :
  extractPathKeywords (Some (str "C:\src\handleUserLogin.test.js"))
  = [str "c:"; str "src"; str "handle"; str "user"; str "login.test"].
Proof. vm_compute. reflexivity. Qed.

(* ================================================================= *)
(** * Properties *)

(** ** Evaluation of the arithmetic on finite numbers *)

Lemma str_eqb_eq (a b : jsstring) : str_eqb a b = true <-> a = b.
Proof.
  unfold str_eqb. destruct (list_eq_dec N.eq_dec a b); split;
    congruence.
Qed.

Lemma str_eqb_refl (a : jsstring) : str_eqb a a = true.
Proof. apply str_eqb_eq. reflexivity. Qed.

Lemma str_eqb_neq (a b : jsstring) : str_eqb a b = false <-> a <> b.
Proof.
  unfold str_eqb. destruct (list_eq_dec N.eq_dec a b); split;
    congruence.
Qed.

Lemma str_eqb_sym (a b : jsstring) : str_eqb a b = str_eqb b a.
Proof.
  destruct (str_eqb b a) eqn:E.
  - apply str_eqb_eq. apply str_eqb_eq in E. congruence.
  - apply str_eqb_neq. apply str_eqb_neq in E. congruence.
Qed.

Lemma js_div_num (x y : R) : y <> 0 -> js_div (Num x) (Num y) = Num (x / y).
Proof.
  intros Hy. unfold js_div. cbn [toNumber].
  destruct (Req_dec_T y 0); [contradiction | reflexivity].
Qed.

Lemma js_lt_num (x y : R) :
  js_lt (Num x) (Num y) = if Rlt_dec x y then true else false.
Proof. reflexivity. Qed.

Lemma js_lt_true (a b : value) :
  js_lt a b = true <-> exists x y, a = Num x /\ b = Num y /\ x < y.
Proof.
  split.
  - destruct a, b; cbn; try discriminate.
    destruct (Rlt_dec r r0); [eauto | discriminate].
  - intros (x & y & -> & -> & H). cbn.
    destruct (Rlt_dec x y); [reflexivity | contradiction].
Qed.

(* ================================================================= *)
(** ** Time decay *)

Module TimeDecay.

Lemma computeTimeWeight_parsed (now t : Z) :
  computeTimeWeight now (Some t)
  = Num (if Rlt_dec (hoursSince now t) 24
         then 1 - hoursSince now t / 48
         else exp (- (hoursSince now t / 24) / 14)).
Proof.
  unfold computeTimeWeight, getTime, hoursSince, msPerHour.
  cbn [js_sub toNumber].
  rewrite !js_div_num by lra.
  rewrite js_lt_num.
  replace (1000 * 60 * 60) with 3600000 by lra.
  destruct (Rlt_dec _ 24).
  - reflexivity.
  - cbn [js_neg toNumber]. rewrite js_div_num by lra.
    cbn. do 2 f_equal. lra.
Qed.

Lemma computeTimeWeight_unparsed (now : Z) : computeTimeWeight now None = NaN.
Proof. reflexivity. Qed.

Lemma hoursSince_shift (now k : Z) :
  hoursSince now (now - k) = IZR k / msPerHour.
Proof. unfold hoursSince. rewrite minus_IZR. f_equal. lra. Qed.

Lemma exp_above_half : 1 / 2 < exp (- 1 / 14).
Proof.
  pose proof (exp_ineq1_le (- 1 / 14)). lra.
Qed.

End TimeDecay.

(* ================================================================= *)
(** ** The heap is only read *)

Section ReadOnly.

Context {A B : Type}.
Variable f : A -> nat -> M B.
Variable g : heap -> A -> nat -> B.
Hypothesis f_reads : forall x i h, f x i h = (g h x i, h).

Lemma mapM_from_reads (xs : list A) :
  forall i h, mapM_from i f xs h = (map_from i (g h) xs, h).
Proof.
  induction xs as [|x r IH]; intros i h; cbn.
  - reflexivity.
  - unfold bind. rewrite f_reads, IH. reflexivity.
Qed.

End ReadOnly.

Lemma map_from_const_index {A B} (f : A -> B) (xs : list A) :
  forall i, map_from i (fun x _ => f x) xs = List.map f xs.
Proof. induction xs as [|x r IH]; intros i; cbn; [|rewrite IH]; reflexivity. Qed.

Lemma map_from_length {A B} (f : A -> nat -> B) (xs : list A) :
  forall i, List.length (map_from i f xs) = List.length xs.
Proof. induction xs as [|x r IH]; intros i; cbn; [|rewrite IH]; reflexivity. Qed.


Lemma map_from_ext_in {A B} (f f' : A -> nat -> B) (xs : list A) :
  forall i,
    (forall k x, nth_error xs k = Some x -> f x (i + k)%nat = f' x (i + k)%nat) ->
    map_from i f xs = map_from i f' xs.
Proof.
  induction xs as [|x r IH]; intros i H; cbn; [reflexivity|].
  f_equal.
  - specialize (H 0%nat x eq_refl). rewrite Nat.add_0_r in H. exact H.
  - apply IH. intros k y Hk. specialize (H (S k) y Hk).
    replace (S i + k)%nat with (i + S k)%nat by lia. exact H.
Qed.

Lemma scoreSessions_run now ctx sessions h :
  scoreSessions now ctx sessions h = (scoresArray now ctx h sessions, h).
Proof.
  unfold scoreSessions, scoresArray, mapM, bind.
  rewrite (mapM_from_reads
             (fun s (_ : nat) =>
                session <- read s ;; ret (extractSessionKeywords session))
             (fun h s _ => extractSessionKeywords (h s)))
    by reflexivity.
  rewrite map_from_const_index.
  rewrite (mapM_from_reads _
             (fun h s index =>
                scoreSession now _ _ _ _ s (h s) index))
    by reflexivity.
  reflexivity.
Qed.

Lemma scoresArray_nil now ctx h : scoresArray now ctx h [] = [].
Proof. reflexivity. Qed.

Lemma calculateRelevanceScores_run now ctx sessions h :
  calculateRelevanceScores now ctx sessions h
  = (sort (scoresArray now ctx h sessions), h).
Proof.
  destruct sessions as [|s r]; [reflexivity|].
  unfold calculateRelevanceScores, bind.
  rewrite scoreSessions_run. reflexivity.
Qed.

Lemma scoresArray_session now ctx h sessions :
  List.map session (scoresArray now ctx h sessions) = sessions.
Proof.
  unfold scoresArray.
  match goal with
  | |- List.map session (map_from _ ?G sessions) = _ => set (F := G)
  end.
  generalize 0%nat.
  assert (HF : forall s i, session (F s i) = s) by reflexivity.
  clearbody F.
  induction sessions as [|s r IH]; intros i; cbn; [reflexivity|].
  rewrite HF, IH. reflexivity.
Qed.

(* ================================================================= *)
(** ** Sorting *)

Lemma insert_perm (x : Scored) (l : list Scored) :
  Permutation (insert x l) (x :: l).
Proof.
  induction l as [|y r IH]; cbn [insert].
  - apply Permutation_refl.
  - destruct (js_lt (Num 0) (compareScores x y)).
    + eapply perm_trans; [apply perm_skip, IH | apply perm_swap].
    + apply Permutation_refl.
Qed.

Lemma sort_perm (l : list Scored) : Permutation (sort l) l.
Proof.
  induction l as [|x r IH]; cbn [sort fold_right].
  - apply perm_nil.
  - eapply perm_trans; [apply insert_perm | apply perm_skip, IH].
Qed.

Lemma insert_filter (v : R) (x : Scored) (l : list Scored) :
  filter (has_score v) (insert x l) = filter (has_score v) (x :: l).
Proof.
  induction l as [|y r IH]; [reflexivity|].
  cbn [insert].
  destruct (js_lt (Num 0) (compareScores x y)) eqn:E; [|reflexivity].
  apply js_lt_true in E. destruct E as (z & d & Hz & Hd & Hlt).
  injection Hz as <-.
  unfold compareScores, js_sub in Hd.
  destruct (score y) as [sy| | |] eqn:Ey; cbn in Hd; try discriminate.
  destruct (score x) as [sx| | |] eqn:Ex; cbn in Hd; try discriminate.
  injection Hd as <-.
  assert (Hxy : has_score v x = true -> has_score v y = true -> False).
  { unfold has_score. rewrite Ex, Ey.
    destruct (Req_dec_T sx v), (Req_dec_T sy v); try discriminate.
    intros _ _. lra. }
  cbn [filter]. rewrite IH. cbn [filter].
  destruct (has_score v x), (has_score v y); try reflexivity.
  exfalso. auto.
Qed.

Lemma sort_ties_keep_order (l : list Scored) : ties_keep_order l (sort l).
Proof.
  intros v. induction l as [|x r IH]; [reflexivity|].
  cbn [sort fold_right]. rewrite insert_filter.
  cbn [filter]. fold (sort r). rewrite IH. reflexivity.
Qed.



Lemma descending_cons (a : Scored) (l : list Scored) :
  descending (a :: l) <->
  (match l with [] => True | b :: _ => score_ge a b end) /\ descending l.
Proof. destruct l; cbn; tauto. Qed.

Lemma insert_descending (x : Scored) (l : list Scored) :
  scored_num x -> Forall scored_num l ->
  descending l -> descending (insert x l).
Proof.
  intros [sx Hx]. induction l as [|y r IH]; intros Hall Hd.
  - exact I.
  - inversion Hall as [|? ? [sy Hy] Hr]; subst.
    cbn [insert].
    destruct (js_lt (Num 0) (compareScores x y)) eqn:E.
    + apply js_lt_true in E. destruct E as (z & d & Hz & Hdiff & Hlt).
      injection Hz as <-.
      unfold compareScores in Hdiff. rewrite Hx, Hy in Hdiff. cbn in Hdiff.
      injection Hdiff as <-.
      apply descending_cons in Hd. destruct Hd as [Hhd Htl].
      specialize (IH Hr Htl).
      apply descending_cons. split; [|exact IH].
      destruct r as [|z r']; cbn [insert].
      * exists sy, sx. repeat split; try assumption. lra.
      * destruct (js_lt (Num 0) (compareScores x z)).
        -- exact Hhd.
        -- exists sy, sx. repeat split; try assumption. lra.
    + apply descending_cons. split; [|exact Hd].
      exists sx, sy. repeat split; try assumption.
      unfold compareScores in E. rewrite Hx, Hy in E. cbn in E.
      destruct (Rlt_dec 0 (sy - sx)); [discriminate | lra].
Qed.

Lemma sort_descending (l : list Scored) :
  Forall scored_num l -> descending (sort l).
Proof.
  induction l as [|x r IH]; intros Hall; [exact I|].
  inversion Hall; subst. cbn [sort fold_right].
  apply insert_descending; try assumption.
  - eapply Permutation_Forall; [apply Permutation_sym, sort_perm | assumption].
  - apply IH. assumption.
Qed.

(* ================================================================= *)
(** ** Objects *)

Lemma own_put_own (o : object) (k : jsstring) (v : value) (w : jsstring) :
  own (put_own o k v) w = if str_eqb k w then Some v else own o w.
Proof.
  induction o as [|[k0 v0] r IH]; cbn [put_own own].
  - reflexivity.
  - destruct (str_eqb k0 k) eqn:E.
    + apply str_eqb_eq in E. subst k0. cbn [own].
      destruct (str_eqb k w); reflexivity.
    + cbn [own]. rewrite IH.
      destruct (str_eqb k0 w) eqn:E0; [|reflexivity].
      apply str_eqb_eq in E0. subst k0.
      rewrite str_eqb_sym, E. reflexivity.
Qed.

Lemma keys_put_own_in (o : object) (k : jsstring) (v : value) :
  In k (keys o) -> keys (put_own o k v) = keys o.
Proof.
  induction o as [|[k0 v0] r IH]; cbn [put_own keys List.map fst In].
  - intros [].
  - intros Hin. destruct (str_eqb k0 k) eqn:E; [reflexivity|].
    cbn [List.map fst]. f_equal. apply IH.
    destruct Hin as [->|Hin]; [|exact Hin].
    rewrite str_eqb_refl in E. discriminate.
Qed.

Lemma keys_put_own_new (o : object) (k : jsstring) (v : value) :
  ~ In k (keys o) -> keys (put_own o k v) = keys o ++ [k].
Proof.
  induction o as [|[k0 v0] r IH]; cbn [put_own keys List.map fst In app].
  - reflexivity.
  - intros Hn. destruct (str_eqb k0 k) eqn:E.
    + apply str_eqb_eq in E. exfalso. apply Hn. left. exact E.
    + cbn [List.map fst]. f_equal. apply IH. intros H. apply Hn. right. exact H.
Qed.

Lemma own_None (o : object) (w : jsstring) :
  own o w = None <-> ~ In w (keys o).
Proof.
  induction o as [|[k0 v0] r IH]; cbn [own keys List.map fst In].
  - tauto.
  - destruct (str_eqb k0 w) eqn:E.
    + apply str_eqb_eq in E. split; [discriminate | intros H; exfalso; auto].
    + apply str_eqb_neq in E. rewrite IH. unfold keys. tauto.
Qed.

Lemma own_Some_in_keys (o : object) (w : jsstring) (v : value) :
  own o w = Some v -> In w (keys o).
Proof.
  intros H. destruct (in_dec (list_eq_dec N.eq_dec) w (keys o)) as [Hi|Hn];
    [exact Hi|].
  apply own_None in Hn. congruence.
Qed.

Lemma in_keys_own (o : object) (w : jsstring) :
  In w (keys o) -> exists v, own o w = Some v.
Proof.
  intros Hin. destruct (own o w) as [v|] eqn:E; [eauto|].
  apply own_None in E. contradiction.
Qed.

Lemma own_Some_in_values (o : object) (w : jsstring) (v : value) :
  own o w = Some v -> In v (values o).
Proof.
  induction o as [|[k0 v0] r IH]; cbn [own values List.map snd In].
  - discriminate.
  - destruct (str_eqb k0 w).
    + intros [= ->]. left. reflexivity.
    + intros H. right. apply IH, H.
Qed.

Lemma in_values_own (o : object) (v : value) :
  NoDup (keys o) -> In v (values o) -> exists w, own o w = Some v.
Proof.
  induction o as [|[k0 v0] r IH]; cbn [own values keys List.map fst snd In].
  - intros _ [].
  - intros Hnd [->|Hin].
    + exists k0. rewrite str_eqb_refl. reflexivity.
    + inversion Hnd as [|? ? Hk0 Hr]; subst.
      destruct (IH Hr Hin) as [w Hw]. exists w.
      destruct (str_eqb k0 w) eqn:E; [|exact Hw].
      apply str_eqb_eq in E. subst w.
      exfalso. apply Hk0. eapply own_Some_in_keys, Hw.
Qed.

Lemma NoDup_keys_put_own (o : object) (k : jsstring) (v : value) :
  NoDup (keys o) -> NoDup (keys (put_own o k v)).
Proof.
  intros Hnd.
  destruct (in_dec (list_eq_dec N.eq_dec) k (keys o)) as [Hi|Hn].
  - rewrite keys_put_own_in by exact Hi. exact Hnd.
  - rewrite keys_put_own_new by exact Hn.
    apply NoDup_app; [exact Hnd | repeat constructor; intros [] |].
    intros x Hx [<-|[]]. contradiction.
Qed.

(** What [o[k] = v] leaves behind. *)
Lemma own_set (o : object) (k : jsstring) (v : value) (w : jsstring) :
  own (set o k v) w
  = if str_eqb k PROTO then own o w
    else if str_eqb k w then Some v else own o w.
Proof.
  unfold set. fold PROTO. destruct (str_eqb k PROTO); [reflexivity|].
  apply own_put_own.
Qed.

Lemma in_keys_set (o : object) (k : jsstring) (v : value) (w : jsstring) :
  In w (keys (set o k v)) <-> In w (keys o) \/ (w = k /\ k <> PROTO).
Proof.
  unfold set. fold PROTO. destruct (str_eqb k PROTO) eqn:E.
  - apply str_eqb_eq in E. tauto.
  - apply str_eqb_neq in E.
    destruct (in_dec (list_eq_dec N.eq_dec) k (keys o)) as [Hi|Hn].
    + rewrite keys_put_own_in by exact Hi. split; [tauto|].
      intros [H|[-> _]]; assumption.
    + rewrite keys_put_own_new by exact Hn. rewrite in_app_iff. cbn [In].
      split; [intros [H|[<-|[]]]; tauto | intros [H|[-> _]]; tauto].
Qed.

Lemma keys_set_in (o : object) (k : jsstring) (v : value) :
  In k (keys o) -> keys (set o k v) = keys o.
Proof.
  intros Hin. unfold set. destruct (str_eqb k (str "__proto__")); [reflexivity|].
  apply keys_put_own_in, Hin.
Qed.

Lemma NoDup_keys_set (o : object) (k : jsstring) (v : value) :
  NoDup (keys o) -> NoDup (keys (set o k v)).
Proof.
  intros H. unfold set. destruct (str_eqb k (str "__proto__")); [exact H|].
  apply NoDup_keys_put_own, H.
Qed.


Lemma wf_nil : wf [].
Proof. split; [constructor | intros []]. Qed.

Lemma wf_set (o : object) (k : jsstring) (v : value) : wf o -> wf (set o k v).
Proof.
  intros [Hnd Hp]. split; [apply NoDup_keys_set, Hnd|].
  rewrite in_keys_set. intros [H|[H1 H2]]; [auto | congruence].
Qed.

Lemma in_unique (xs : list jsstring) (w : jsstring) :
  In w (unique xs) <-> In w xs.
Proof.
  induction xs as [|x r IH]; cbn [unique In]; [tauto|].
  rewrite filter_In, IH.
  destruct (str_eqb x w) eqn:E.
  - apply str_eqb_eq in E. cbn. intuition congruence.
  - apply str_eqb_neq in E. cbn. intuition congruence.
Qed.

Lemma NoDup_unique (xs : list jsstring) : NoDup (unique xs).
Proof.
  induction xs as [|x r IH]; cbn [unique]; constructor.
  - rewrite filter_In. intros [_ H]. rewrite str_eqb_refl in H. discriminate.
  - apply NoDup_filter, IH.
Qed.

(* ================================================================= *)
(** ** Term frequency *)

Lemma occ_app (w : jsstring) (xs ys : list jsstring) :
  occ w (xs ++ ys) = (occ w xs + occ w ys)%nat.
Proof. unfold occ. rewrite filter_app, length_app. reflexivity. Qed.

Lemma occ_one (w k : jsstring) :
  occ w [k] = if str_eqb w k then 1%nat else 0%nat.
Proof. unfold occ. cbn. destruct (str_eqb w k); reflexivity. Qed.

Lemma occ_pos (w : jsstring) (kws : list jsstring) :
  (0 < occ w kws)%nat <-> In w kws.
Proof.
  unfold occ. induction kws as [|k r IH]; cbn [filter In List.length].
  - split; [lia | tauto].
  - destruct (str_eqb w k) eqn:E.
    + apply str_eqb_eq in E. cbn [List.length]. split; [auto | lia].
    + apply str_eqb_neq in E. rewrite IH. intuition congruence.
Qed.

Lemma get_own (o : object) (w : jsstring) (v : value) :
  own o w = Some v -> get o w = v.
Proof. unfold get. intros ->. reflexivity. Qed.

Lemma get_absent (o : object) (w : jsstring) :
  own o w = None -> get o w = if inherited w then Junk else Undefined.
Proof. unfold get. intros ->. reflexivity. Qed.

Lemma increment_counted (done : list jsstring) (o : object) (k : jsstring) :
  (forall w, own o w = counted done w) ->
  forall w, own (increment o k) w = counted (done ++ [k]) w.
Proof.
  intros Ho w. unfold increment. rewrite own_set.
  unfold counted at 1. rewrite occ_app, occ_one.
  destruct (str_eqb k PROTO) eqn:Ek.
  - apply str_eqb_eq in Ek. subst k. rewrite Ho. unfold counted.
    destruct (str_eqb w PROTO); [reflexivity|].
    rewrite Nat.add_0_r. reflexivity.
  - destruct (str_eqb k w) eqn:Ekw.
    + apply str_eqb_eq in Ekw. subst w. rewrite Ek, str_eqb_refl.
      specialize (Ho k). unfold counted in Ho. rewrite Ek in Ho.
      destruct (occ k done) as [|n] eqn:En.
      * rewrite (get_absent _ _ Ho). cbn [Nat.add].
        destruct (inherited k); cbn; [reflexivity|].
        do 2 f_equal. lra.
      * rewrite (get_own _ _ _ Ho).
        replace (S n + 1)%nat with (S (S n)) by lia.
        destruct (inherited k); cbn [or_zero js_add]; [reflexivity|].
        do 2 f_equal.
    + rewrite Ho. unfold counted. rewrite (str_eqb_sym w k), Ekw.
      rewrite Nat.add_0_r. reflexivity.
Qed.

Lemma counting_loop (kws : list jsstring) :
  forall done o,
    (forall w, own o w = counted done w) ->
    forall w, own (fold_left increment kws o) w = counted (done ++ kws) w.
Proof.
  induction kws as [|k r IH]; intros done o Ho w; cbn [fold_left].
  - rewrite app_nil_r. apply Ho.
  - replace (done ++ k :: r) with ((done ++ [k]) ++ r)
      by (rewrite <- app_assoc; reflexivity).
    apply IH. apply increment_counted, Ho.
Qed.

Lemma counts_own (kws : list jsstring) (w : jsstring) :
  own (fold_left increment kws []) w = counted kws w.
Proof.
  apply (counting_loop kws [] []). intros w'. unfold counted.
  destruct (str_eqb w' PROTO); reflexivity.
Qed.

Lemma wf_fold_set {A} (step : object -> A -> object) (xs : list A) :
  (forall o x, wf o -> wf (step o x)) ->
  forall o, wf o -> wf (fold_left step xs o).
Proof.
  intros Hstep. induction xs as [|x r IH]; intros o Ho; cbn; auto.
Qed.

Lemma wf_counts (kws : list jsstring) : wf (fold_left increment kws []).
Proof.
  apply wf_fold_set; [|apply wf_nil].
  intros o x Ho. apply wf_set, Ho.
Qed.

(** One pass over a list of distinct keys that rewrites each visited
    property from its current value. *)
Lemma rewrite_loop (F : value -> value) (ks : list jsstring) :
  NoDup ks -> ~ In PROTO ks ->
  forall o,
    (forall k, In k ks -> In k (keys o)) ->
    let o' := fold_left (fun tf word => set tf word (F (get tf word))) ks o in
    keys o' = keys o /\
    forall w, own o' w
              = if in_dec (list_eq_dec N.eq_dec) w ks
                then option_map F (own o w) else own o w.
Proof.
  induction ks as [|k r IH]; intros Hnd Hp o Hin; cbn [fold_left].
  - split; [reflexivity|]. intros w. reflexivity.
  - inversion Hnd as [|? ? Hk Hr]; subst.
    assert (Hkp : k <> PROTO) by (intros ->; apply Hp; left; reflexivity).
    assert (Hko : In k (keys o)) by (apply Hin; left; reflexivity).
    destruct (in_keys_own _ _ Hko) as [vk Hvk].
    specialize (IH Hr (fun H => Hp (or_intror H))
                   (set o k (F (get o k)))).
    destruct IH as [IHk IHw].
    { intros k' Hk'. rewrite keys_set_in by exact Hko.
      apply Hin. right. exact Hk'. }
    split.
    + rewrite IHk. apply keys_set_in, Hko.
    + intros w. rewrite IHw, own_set.
      apply str_eqb_neq in Hkp. rewrite Hkp.
      destruct (in_dec (list_eq_dec N.eq_dec) w r) as [Hwr|Hwr];
        destruct (in_dec (list_eq_dec N.eq_dec) w (k :: r)) as [Hwk|Hwk];
        destruct (str_eqb k w) eqn:E;
        try (apply str_eqb_eq in E; subst w);
        try (apply str_eqb_neq in E);
        cbn [In] in *; try tauto.
      rewrite (get_own _ _ _ Hvk), Hvk. reflexivity.
Qed.

Lemma keys_calculateTF (kws : list jsstring) :
  keys (calculateTF kws) = keys (fold_left increment kws []).
Proof.
  unfold calculateTF. destruct (wf_counts kws) as [Hnd Hp].
  apply (rewrite_loop (fun v => js_div v (maxFreqOf kws)) _);
    [exact Hnd | exact Hp | auto].
Qed.

Lemma own_calculateTF (kws : list jsstring) (w : jsstring) :
  own (calculateTF kws) w
  = option_map (fun v => js_div v (maxFreqOf kws)) (counted kws w).
Proof.
  unfold calculateTF. destruct (wf_counts kws) as [Hnd Hp].
  destruct (rewrite_loop (fun v => js_div v (maxFreqOf kws)) _ Hnd Hp
              (fold_left increment kws []) (fun k H => H)) as [_ Hw].
  unfold maxFreqOf in *. rewrite Hw.
  destruct (in_dec (list_eq_dec N.eq_dec) w
              (keys (fold_left increment kws []))) as [Hi|Hn].
  - rewrite counts_own. reflexivity.
  - apply own_None in Hn. rewrite Hn. rewrite counts_own in Hn.
    rewrite Hn. reflexivity.
Qed.

Lemma wf_calculateTF (kws : list jsstring) : wf (calculateTF kws).
Proof. unfold wf. rewrite keys_calculateTF. apply wf_counts. Qed.

Lemma in_keys_calculateTF (kws : list jsstring) (w : jsstring) :
  In w (keys (calculateTF kws)) <-> In w kws /\ w <> PROTO.
Proof.
  split.
  - intros H. apply in_keys_own in H. destruct H as [v Hv].
    rewrite own_calculateTF in Hv. unfold counted in Hv.
    destruct (str_eqb w PROTO) eqn:E; [discriminate|].
    apply str_eqb_neq in E. split; [|exact E].
    apply occ_pos. destruct (occ w kws); [discriminate | lia].
  - intros [Hin Hp].
    destruct (own (calculateTF kws) w) as [v|] eqn:E.
    + eapply own_Some_in_keys, E.
    + rewrite own_calculateTF in E. unfold counted in E.
      apply str_eqb_neq in Hp. rewrite Hp in E.
      apply occ_pos in Hin. destruct (occ w kws); [lia | discriminate].
Qed.

Lemma js_max_nan_r (a b : value) : toNumber b = NaN -> js_max a b = NaN.
Proof. unfold js_max. intros ->. destruct (toNumber a); reflexivity. Qed.

Lemma js_max_nan_l (a b : value) : toNumber a = NaN -> js_max a b = NaN.
Proof. unfold js_max. intros ->. reflexivity. Qed.

Lemma js_div_nan_r (a b : value) : toNumber b = NaN -> js_div a b = NaN.
Proof. unfold js_div. intros ->. destruct (toNumber a); reflexivity. Qed.

Lemma js_mul_nan_l (a b : value) : toNumber a = NaN -> js_mul a b = NaN.
Proof. unfold js_mul. intros ->. reflexivity. Qed.

Lemma js_mul_shape (a b : value) : js_mul a b = NaN \/ exists r, js_mul a b = Num r.
Proof.
  unfold js_mul. destruct (toNumber a); auto. destruct (toNumber b); eauto.
Qed.

Lemma max_poisoned (vals : list value) (v : value) :
  In v vals -> toNumber v = NaN -> fold_right js_max (Num 1) vals = NaN.
Proof.
  induction vals as [|x r IH]; cbn [In fold_right]; [tauto|].
  intros [->|Hin] Hv.
  - apply js_max_nan_l, Hv.
  - apply js_max_nan_r. rewrite (IH Hin Hv). reflexivity.
Qed.

Lemma max_of_numbers (vals : list value) :
  (forall v, In v vals -> exists r, v = Num r) ->
  exists m, fold_right js_max (Num 1) vals = Num m /\ 1 <= m
            /\ (forall r, In (Num r) vals -> r <= m)
            /\ (m = 1 \/ In (Num m) vals).
Proof.
  induction vals as [|x r IH]; cbn [In fold_right]; intros Hall.
  - exists 1. repeat split; [lra | tauto | auto].
  - destruct IH as (m & Hm & H1 & Hle & Hin); [auto|].
    destruct (Hall x (or_introl eq_refl)) as [c ->].
    rewrite Hm. cbn [js_max toNumber].
    exists (Rmax c m). split; [reflexivity|].
    pose proof (Rmax_l c m) as Hl. pose proof (Rmax_r c m) as Hr.
    split; [lra|]. split.
    + intros r0 [[= ->]|Hr0]; [lra|]. specialize (Hle r0 Hr0). lra.
    + unfold Rmax in *. destruct (Rle_dec c m); [tauto | auto].
Qed.

(** A token sequence is poisoned when it holds a name that
    [Object.prototype] defines, [__proto__] apart. *)
Lemma maxFreqOf_poisoned (kws : list jsstring) (w : jsstring) :
  In w kws -> inherited w = true -> w <> PROTO -> maxFreqOf kws = NaN.
Proof.
  intros Hin Hinh Hp. unfold maxFreqOf.
  apply max_poisoned with (v := Junk); [|reflexivity].
  apply own_Some_in_values with (w := w).
  rewrite counts_own. unfold counted.
  apply str_eqb_neq in Hp. rewrite Hp, Hinh.
  apply occ_pos in Hin. destruct (occ w kws); [lia | reflexivity].
Qed.

Lemma counted_clean (kws : list jsstring) (w : jsstring) (v : value) :
  (forall k, In k kws -> inherited k = true -> k = PROTO) ->
  counted kws w = Some v ->
  v = Num (INR (occ w kws)) /\ (0 < occ w kws)%nat.
Proof.
  intros Hc. unfold counted.
  destruct (str_eqb w PROTO) eqn:E; [discriminate|].
  destruct (occ w kws) as [|n] eqn:En; [discriminate|].
  assert (Hin : In w kws) by (apply occ_pos; lia).
  destruct (inherited w) eqn:Ei.
  - apply str_eqb_neq in E. exfalso. apply E, Hc; assumption.
  - intros [= <-]. split; [reflexivity | lia].
Qed.

Lemma maxFreqOf_clean (kws : list jsstring) :
  (forall k, In k kws -> inherited k = true -> k = PROTO) ->
  exists m, maxFreqOf kws = Num m /\ 1 <= m
            /\ (forall w v, counted kws w = Some v ->
                            exists c, v = Num c /\ 0 < c <= m)
            /\ (m = 1 \/ exists w, counted kws w = Some (Num m)).
Proof.
  intros Hc. unfold maxFreqOf.
  destruct (wf_counts kws) as [Hnd _].
  destruct (max_of_numbers (values (fold_left increment kws [])))
    as (m & Hm & H1 & Hle & Hin).
  { intros v Hv. apply in_values_own in Hv; [|exact Hnd].
    destruct Hv as [w Hw]. rewrite counts_own in Hw.
    apply counted_clean in Hw; [|exact Hc]. destruct Hw as [-> _]. eauto. }
  exists m. repeat split; try assumption.
  - intros w v Hv. pose proof Hv as Hv'.
    apply counted_clean in Hv; [|exact Hc]. destruct Hv as [-> Hpos].
    exists (INR (occ w kws)). split; [reflexivity|]. split.
    + apply lt_0_INR. exact Hpos.
    + apply Hle. apply own_Some_in_values with (w := w).
      rewrite counts_own. exact Hv'.
  - destruct Hin as [->|Hin]; [left; reflexivity | right].
    apply in_values_own in Hin; [|exact Hnd].
    destruct Hin as [w Hw]. exists w. rewrite <- counts_own. exact Hw.
Qed.

(* ================================================================= *)
(** ** TF-IDF *)

(** One pass over a list of keys that stores a value computed from the
    key alone. *)
Lemma build_loop (F : jsstring -> value) (ks : list jsstring) :
  ~ In PROTO ks ->
  forall o,
    let o' := fold_left (fun acc word => set acc word (F word)) ks o in
    (forall w, own o' w
               = if in_dec (list_eq_dec N.eq_dec) w ks
                 then Some (F w) else own o w).
Proof.
  induction ks as [|k r IH]; intros Hp o; cbn [fold_left].
  - intros w. reflexivity.
  - assert (Hkp : k <> PROTO) by (intros ->; apply Hp; left; reflexivity).
    intros w. cbv zeta in IH.
    rewrite (IH (fun H => Hp (or_intror H))), own_set.
    apply str_eqb_neq in Hkp. rewrite Hkp.
    destruct (in_dec (list_eq_dec N.eq_dec) w r) as [Hwr|Hwr];
      destruct (in_dec (list_eq_dec N.eq_dec) w (k :: r)) as [Hwk|Hwk];
      destruct (str_eqb k w) eqn:E;
      try (apply str_eqb_eq in E; subst w);
      try (apply str_eqb_neq in E);
      cbn [In] in *; tauto.
Qed.

Lemma calculateTFIDF_loop (kws : list jsstring) (df : object) (n : nat) :
  calculateTFIDF kws df n
  = fold_left
      (fun acc word =>
         set acc word (js_mul (get (calculateTF kws) word) (idf df n word)))
      (keys (calculateTF kws)) [].
Proof. reflexivity. Qed.

Lemma own_calculateTFIDF (kws : list jsstring) (df : object) (n : nat)
      (w : jsstring) :
  own (calculateTFIDF kws df n) w
  = option_map (fun v => js_mul v (idf df n w)) (own (calculateTF kws) w).
Proof.
  rewrite calculateTFIDF_loop.
  destruct (wf_calculateTF kws) as [_ Hp].
  rewrite (build_loop
             (fun word => js_mul (get (calculateTF kws) word) (idf df n word))
             (keys (calculateTF kws)) Hp).
  destruct (in_dec (list_eq_dec N.eq_dec) w (keys (calculateTF kws)))
    as [Hi|Hn].
  - destruct (in_keys_own _ _ Hi) as [v Hv].
    rewrite (get_own _ _ _ Hv), Hv. reflexivity.
  - apply own_None in Hn. rewrite Hn. reflexivity.
Qed.

Lemma in_keys_calculateTFIDF (kws : list jsstring) (df : object) (n : nat)
      (w : jsstring) :
  In w (keys (calculateTFIDF kws df n)) <-> In w kws /\ w <> PROTO.
Proof.
  rewrite <- in_keys_calculateTF. split; intros H.
  - apply in_keys_own in H. destruct H as [v Hv].
    rewrite own_calculateTFIDF in Hv.
    destruct (own (calculateTF kws) w) eqn:E; [|discriminate].
    eapply own_Some_in_keys, E.
  - apply in_keys_own in H. destruct H as [v Hv].
    apply own_Some_in_keys with (v := js_mul v (idf df n w)).
    rewrite own_calculateTFIDF, Hv. reflexivity.
Qed.

(* ================================================================= *)
(** ** Cosine similarity *)

Lemma cosine_fold_split (vec1 vec2 : object) (ws : list jsstring) :
  forall d n1 n2,
    fold_left
      (fun '(dotProduct, norm1, norm2) word =>
         let v1 := or_zero (get vec1 word) in
         let v2 := or_zero (get vec2 word) in
         (js_add dotProduct (js_mul v1 v2),
          js_add norm1 (js_mul v1 v1),
          js_add norm2 (js_mul v2 v2)))
      ws (d, n1, n2)
    = (fold_left (dotStep vec1 vec2) ws d,
       fold_left (dotStep vec1 vec1) ws n1,
       fold_left (dotStep vec2 vec2) ws n2).
Proof.
  induction ws as [|w r IH]; intros d n1 n2; cbn [fold_left].
  - reflexivity.
  - rewrite IH. reflexivity.
Qed.

Lemma cosineSimilarity_eq (vec1 vec2 : object) :
  cosineSimilarity vec1 vec2
  = let ws := allWordsOf vec1 vec2 in
    let dotProduct := fold_left (dotStep vec1 vec2) ws (Num 0) in
    let norm1 := fold_left (dotStep vec1 vec1) ws (Num 0) in
    let norm2 := fold_left (dotStep vec2 vec2) ws (Num 0) in
    if js_is_zero norm1 || js_is_zero norm2 then Num 0
    else js_div dotProduct (js_mul (js_sqrt norm1) (js_sqrt norm2)).
Proof.
  unfold cosineSimilarity, allWordsOf. rewrite cosine_fold_split. reflexivity.
Qed.

Lemma dot_fold_numeric (vec1 vec2 : object) (ws : list jsstring) :
  (forall w, In w ws -> numeric vec1 w /\ numeric vec2 w) ->
  forall s0,
    fold_left (dotStep vec1 vec2) ws (Num s0)
    = Num (s0 + dot vec1 vec2 ws).
Proof.
  unfold dot.
  induction ws as [|w r IH]; intros Hnum s0; cbn [fold_left rsum].
  - f_equal. lra.
  - destruct (Hnum w (or_introl eq_refl)) as [[a Ha] [b Hb]].
    unfold dotStep at 2. unfold coord at 1 2. rewrite Ha, Hb.
    cbn [js_mul js_add toNumber].
    rewrite IH by (intros w' Hw'; apply Hnum; right; exact Hw').
    f_equal. lra.
Qed.

Lemma rsum_zero (f : jsstring -> R) (ws : list jsstring) :
  (forall w, In w ws -> f w = 0) -> rsum f ws = 0.
Proof.
  induction ws as [|w r IH]; intros H; cbn [rsum]; [reflexivity|].
  rewrite (H w (or_introl eq_refl)), IH; [lra|].
  intros w' Hw'. apply H. right. exact Hw'.
Qed.

Lemma rsum_square_nonneg (f : jsstring -> R) (ws : list jsstring) :
  0 <= rsum (fun w => f w * f w) ws.
Proof.
  induction ws as [|w r IH]; cbn [rsum]; [lra|]. nra.
Qed.

Lemma js_is_zero_num (r : R) : r = 0 -> js_is_zero (Num r) = true.
Proof.
  intros ->. cbn. destruct (Req_dec_T 0 0); [reflexivity | contradiction].
Qed.

Lemma js_is_zero_false (r : R) : js_is_zero (Num r) = false -> r <> 0.
Proof. cbn. destruct (Req_dec_T r 0); [discriminate | auto]. Qed.

(** A vector all of whose looked-up coordinates are falsy has norm 0, and
    the similarity with it is 0 whatever the other vector holds. *)
Lemma norm_of_falsy (vec : object) (ws : list jsstring) :
  (forall w, In w ws -> or_zero (get vec w) = Num 0) ->
  js_is_zero (fold_left (dotStep vec vec) ws (Num 0)) = true.
Proof.
  intros H. rewrite dot_fold_numeric.
  - apply js_is_zero_num. unfold dot. rewrite rsum_zero; [lra|].
    intros w Hw. unfold coord. rewrite (H w Hw). lra.
  - intros w Hw. split; exists 0; apply H, Hw.
Qed.

Lemma cosine_falsy_l (vec1 vec2 : object) :
  (forall w, In w (allWordsOf vec1 vec2) -> or_zero (get vec1 w) = Num 0) ->
  cosineSimilarity vec1 vec2 = Num 0.
Proof.
  intros H. rewrite cosineSimilarity_eq. cbv zeta.
  rewrite (norm_of_falsy _ _ H). reflexivity.
Qed.

Lemma cosine_falsy_r (vec1 vec2 : object) :
  (forall w, In w (allWordsOf vec1 vec2) -> or_zero (get vec2 w) = Num 0) ->
  cosineSimilarity vec1 vec2 = Num 0.
Proof.
  intros H. rewrite cosineSimilarity_eq. cbv zeta.
  rewrite (norm_of_falsy _ _ H), orb_true_r. reflexivity.
Qed.

(** When every coordinate that is looked up is a number, the result is
    the cosine of the two real vectors, or 0 when one of them is null. *)
Lemma cosine_numeric (vec1 vec2 : object) :
  (forall w, In w (allWordsOf vec1 vec2) -> numeric vec1 w /\ numeric vec2 w) ->
  let ws := allWordsOf vec1 vec2 in
  cosineSimilarity vec1 vec2
  = Num (if Req_dec_T (dot vec1 vec1 ws) 0 then 0
         else if Req_dec_T (dot vec2 vec2 ws) 0 then 0
         else dot vec1 vec2 ws
              / (sqrt (dot vec1 vec1 ws) * sqrt (dot vec2 vec2 ws))).
Proof.
  intros Hnum ws. rewrite cosineSimilarity_eq. cbv zeta. fold ws.
  rewrite !dot_fold_numeric by (intros w Hw; specialize (Hnum w Hw); tauto).
  rewrite !Rplus_0_l.
  assert (H1 : 0 <= dot vec1 vec1 ws) by apply rsum_square_nonneg.
  assert (H2 : 0 <= dot vec2 vec2 ws) by apply rsum_square_nonneg.
  cbn [js_is_zero].
  destruct (Req_dec_T (dot vec1 vec1 ws) 0) as [E1|E1]; [reflexivity|].
  destruct (Req_dec_T (dot vec2 vec2 ws) 0) as [E2|E2]; [reflexivity|].
  cbn [orb js_sqrt toNumber].
  destruct (Rlt_dec (dot vec1 vec1 ws) 0); [lra|].
  destruct (Rlt_dec (dot vec2 vec2 ws) 0); [lra|].
  cbn [js_mul toNumber]. apply js_div_num.
  assert (0 < sqrt (dot vec1 vec1 ws)) by (apply sqrt_lt_R0; lra).
  assert (0 < sqrt (dot vec2 vec2 ws)) by (apply sqrt_lt_R0; lra).
  nra.
Qed.

(* ================================================================= *)
(** ** Similarity of two TF-IDF vectors *)

Lemma constructor_inherited : inherited CONSTRUCTOR = true.
Proof. vm_compute. reflexivity. Qed.

Lemma constructor_not_proto : CONSTRUCTOR <> PROTO.
Proof. vm_compute. discriminate. Qed.

Lemma tfidf_poisoned (kws : list jsstring) (df : object) (n : nat)
      (k : jsstring) :
  In k kws -> inherited k = true -> k <> PROTO ->
  forall w v, own (calculateTFIDF kws df n) w = Some v -> v = NaN.
Proof.
  intros Hin Hinh Hp w v. rewrite own_calculateTFIDF, own_calculateTF.
  rewrite (maxFreqOf_poisoned kws k Hin Hinh Hp).
  destruct (counted kws w) as [c|]; cbn [option_map]; [|discriminate].
  intros [= <-]. apply js_mul_nan_l.
  rewrite js_div_nan_r by reflexivity. reflexivity.
Qed.

Lemma tfidf_lookup (kws : list jsstring) (df : object) (n : nat)
      (w : jsstring) :
  numeric (calculateTFIDF kws df n) w
  \/ (own (calculateTFIDF kws df n) w = None /\ inherited w = true).
Proof.
  unfold numeric, get.
  destruct (own (calculateTFIDF kws df n) w) as [v|] eqn:E.
  - left. rewrite own_calculateTFIDF in E.
    destruct (own (calculateTF kws) w) as [t|]; [|discriminate].
    injection E as <-.
    destruct (js_mul_shape t (idf df n w)) as [->|[r ->]]; cbn; eauto.
  - destruct (inherited w); [right; auto | left; cbn; eauto].
Qed.

(** With plain tokens, a word known to one vector and looked up in the
    other can only hit [Object.prototype] under the name [constructor]. *)
Lemma foreign_lookup (kws kws' : list jsstring) (df : object) (n : nat)
      (w : jsstring) :
  Forall plain kws' ->
  In w (keys (calculateTFIDF kws' df n)) ->
  numeric (calculateTFIDF kws df n) w \/ (w = CONSTRUCTOR /\ In w kws').
Proof.
  intros Hpl Hk. apply in_keys_calculateTFIDF in Hk. destruct Hk as [Hin Hp].
  destruct (tfidf_lookup kws df n w) as [H|[_ Hinh]]; [left; exact H|].
  right. split; [|exact Hin].
  rewrite Forall_forall in Hpl. destruct (Hpl w Hin Hinh); [assumption|].
  contradiction.
Qed.

Lemma own_lookup_numeric (kws : list jsstring) (df : object) (n : nat)
      (w : jsstring) :
  In w (keys (calculateTFIDF kws df n)) ->
  numeric (calculateTFIDF kws df n) w.
Proof.
  intros Hk. destruct (tfidf_lookup kws df n w) as [H|[Hn _]]; [exact H|].
  apply own_None in Hn. contradiction.
Qed.

Lemma poisoned_lookup (kws kws' : list jsstring) (df : object) (n : nat)
      (w : jsstring) :
  Forall plain kws' ->
  In CONSTRUCTOR kws ->
  In w (allWordsOf (calculateTFIDF kws df n) (calculateTFIDF kws' df n))
  \/ In w (allWordsOf (calculateTFIDF kws' df n) (calculateTFIDF kws df n)) ->
  or_zero (get (calculateTFIDF kws df n) w) = Num 0.
Proof.
  intros Hpl Hc Hw.
  assert (Hw' : In w (keys (calculateTFIDF kws df n))
                \/ In w (keys (calculateTFIDF kws' df n))).
  { unfold allWordsOf in Hw. rewrite !in_unique, !in_app_iff in Hw. tauto. }
  clear Hw.
  assert (Hck : In CONSTRUCTOR (keys (calculateTFIDF kws df n))).
  { apply in_keys_calculateTFIDF. split; [exact Hc | apply constructor_not_proto]. }
  unfold get.
  destruct (own (calculateTFIDF kws df n) w) as [v|] eqn:E.
  - rewrite (tfidf_poisoned kws df n CONSTRUCTOR Hc constructor_inherited
               constructor_not_proto w v E).
    reflexivity.
  - destruct Hw' as [Hk|Hk].
    + apply own_None in E. contradiction.
    + destruct (inherited w) eqn:Ei; [|reflexivity].
      apply in_keys_calculateTFIDF in Hk. destruct Hk as [Hin Hp].
      rewrite Forall_forall in Hpl.
      destruct (Hpl w Hin Ei) as [-> | ->]; [|contradiction].
      apply own_None in E. contradiction.
Qed.

Theorem similarity_is_number
    (kws1 kws2 : list jsstring) (df : object) (n : nat) :
  Forall plain kws1 -> Forall plain kws2 ->
  exists r,
    cosineSimilarity (calculateTFIDF kws1 df n) (calculateTFIDF kws2 df n)
    = Num r.
Proof.
  intros H1 H2.
  destruct (in_dec (list_eq_dec N.eq_dec) CONSTRUCTOR kws1) as [C1|C1].
  { exists 0. apply cosine_falsy_l. intros w Hw.
    apply (poisoned_lookup kws1 kws2 df n w H2 C1). left. exact Hw. }
  destruct (in_dec (list_eq_dec N.eq_dec) CONSTRUCTOR kws2) as [C2|C2].
  { exists 0. apply cosine_falsy_r. intros w Hw.
    apply (poisoned_lookup kws2 kws1 df n w H1 C2). right. exact Hw. }
  eexists. apply cosine_numeric.
  intros w Hw. unfold allWordsOf in Hw. rewrite in_unique, in_app_iff in Hw.
  destruct Hw as [Hk|Hk]; split.
  - apply own_lookup_numeric, Hk.
  - destruct (foreign_lookup kws2 kws1 df n w H1 Hk) as [H|[-> Hin]];
      [exact H | contradiction].
  - destruct (foreign_lookup kws1 kws2 df n w H2 Hk) as [H|[-> Hin]];
      [exact H | contradiction].
  - apply own_lookup_numeric, Hk.
Qed.

(* ================================================================= *)
(** ** Tokenizer *)

Lemma toLowerCase_lowercase (s : jsstring) : lowercase (toLowerCase s).
Proof.
  unfold lowercase, toLowerCase. apply Forall_map.
  apply Forall_forall. intros c _.
  destruct (is_upper c) eqn:E; [|exact E].
  unfold is_upper, between in *.
  apply andb_true_iff in E. destruct E as [E1 E2].
  apply N.leb_le in E1. apply N.leb_le in E2.
  apply andb_false_iff. right. apply N.leb_gt. lia.
Qed.

Section PiecesKeepProperty.

Variable P : N -> Prop.

Lemma split_on_Forall (sep : N) (s : jsstring) :
  Forall P s -> Forall (Forall P) (split_on sep s).
Proof.
  induction s as [|c r IH]; intros H; cbn [split_on].
  - repeat constructor.
  - inversion H as [|? ? Hc Hr]; subst. specialize (IH Hr).
    destruct (c =? sep)%N.
    + constructor; [constructor | exact IH].
    + destruct (split_on sep r) as [|w ws].
      * repeat constructor. exact Hc.
      * inversion IH; subst. constructor; [constructor|]; assumption.
Qed.

Lemma split_separators_Forall (s : jsstring) :
  forall in_sep, Forall P s -> Forall (Forall P) (split_separators in_sep s).
Proof.
  induction s as [|c r IH]; intros in_sep H; cbn [split_separators].
  - repeat constructor.
  - inversion H as [|? ? Hc Hr]; subst.
    destruct (is_separator c).
    + destruct in_sep; [apply IH, Hr|].
      constructor; [constructor | apply IH, Hr].
    + specialize (IH false Hr).
      destruct (split_separators false r) as [|w ws].
      * repeat constructor. exact Hc.
      * inversion IH; subst. constructor; [constructor|]; assumption.
Qed.

Lemma collapse_spaces_Forall (s : jsstring) :
  P SPACE -> forall in_run, Forall P s -> Forall P (collapse_spaces in_run s).
Proof.
  intros Hsp. induction s as [|c r IH]; intros in_run H;
    cbn [collapse_spaces]; [constructor|].
  inversion H; subst.
  destruct (is_space c); [destruct in_run|]; auto.
Qed.

Lemma drop_spaces_Forall (s : jsstring) :
  Forall P s -> Forall P (drop_spaces s).
Proof.
  induction s as [|c r IH]; intros H; cbn [drop_spaces]; [constructor|].
  destruct (is_space c); [|exact H]. inversion H; auto.
Qed.

Lemma trim_Forall (s : jsstring) : Forall P s -> Forall P (trim s).
Proof.
  intros H. unfold trim.
  apply Forall_rev, drop_spaces_Forall, Forall_rev, drop_spaces_Forall, H.
Qed.

End PiecesKeepProperty.

Lemma extractKeywords_lowercase (text : option jsstring) :
  Forall lowercase (extractKeywords text).
Proof.
  destruct text as [[|c t]|]; try constructor.
  unfold extractKeywords.
  apply Forall_forall. intros w Hw. apply filter_In in Hw. destruct Hw as [Hw _].
  revert w Hw. apply Forall_forall.
  apply split_on_Forall, trim_Forall, collapse_spaces_Forall; [reflexivity|].
  apply Forall_map.
  eapply Forall_impl; [|apply toLowerCase_lowercase].
  intros a Ha. cbv beta.
  destruct (is_word a || is_space a || is_hangul a); [exact Ha | reflexivity].
Qed.

Lemma extractPathKeywords_lowercase (filePath : option jsstring) :
  Forall lowercase (extractPathKeywords filePath).
Proof.
  destruct filePath as [[|c t]|]; try constructor.
  unfold extractPathKeywords.
  apply Forall_forall. intros w Hw. apply in_flat_map in Hw.
  destruct Hw as (part & _ & Hw). apply filter_In in Hw. destruct Hw as [Hw _].
  revert w Hw. apply Forall_forall.
  apply split_separators_Forall, toLowerCase_lowercase.
Qed.

Lemma lowercase_plain (w : jsstring) : lowercase w -> plain w.
Proof.
  intros Hl Hinh. unfold inherited in Hinh.
  apply existsb_exists in Hinh. destruct Hinh as (x & Hx & E).
  apply str_eqb_eq in E. subst x.
  assert (Hb : forallb (fun c => negb (is_upper c)) w = true).
  { apply forallb_forall. intros c Hc.
    unfold lowercase in Hl. rewrite Forall_forall in Hl.
    rewrite (Hl c Hc). reflexivity. }
  unfold objectPrototype in Hx. cbn [List.map In] in Hx.
  repeat (destruct Hx as [<-|Hx];
          [ first [ left; reflexivity
                  | right; reflexivity
                  | vm_compute in Hb; discriminate ] | ]).
  destruct Hx.
Qed.

Lemma extractSessionKeywords_plain (s : Session) :
  Forall plain (extractSessionKeywords s).
Proof.
  eapply Forall_impl; [apply lowercase_plain|].
  unfold extractSessionKeywords.
  apply Forall_app; split; [|apply Forall_app; split].
  - destruct (truthy (summary s)); [apply extractKeywords_lowercase | constructor].
  - destruct (conversations s) as [[|c cs]|]; try constructor.
    apply Forall_flat_map, Forall_forall. intros conv _.
    destruct (truthy (message conv));
      [apply extractKeywords_lowercase | constructor].
  - destruct (observations s) as [obss|]; [|constructor].
    apply Forall_flat_map, Forall_forall. intros obs _.
    apply Forall_app; split; [|apply Forall_app; split].
    + apply extractKeywords_lowercase.
    + destruct (details obs) as [d|]; [|constructor].
      apply Forall_app; split.
      * destruct (truthy (file d));
          [apply extractPathKeywords_lowercase | constructor].
      * destruct (truthy (command d));
          [apply extractKeywords_lowercase | constructor].
    + destruct (context obs) as [c|]; [|constructor].
      destruct (truthy (lastUserMessage c));
        [apply extractKeywords_lowercase | constructor].
Qed.

Lemma contextKeywordsOf_plain (ctx : Context) :
  Forall plain (contextKeywordsOf ctx).
Proof.
  eapply Forall_impl; [apply lowercase_plain|].
  unfold contextKeywordsOf. apply Forall_app; split.
  - destruct (truthy (cwd ctx));
      [apply extractPathKeywords_lowercase | constructor].
  - destruct (recentFiles ctx) as [files|]; [|constructor].
    apply Forall_flat_map, Forall_forall. intros f _.
    apply extractPathKeywords_lowercase.
Qed.

(** Every token of the path tokenizer passed its filter. *)
Lemma extractPathKeywords_filtered (filePath : option jsstring) (w : jsstring) :
  In w (extractPathKeywords filePath) -> path_word_ok w = true.
Proof.
  destruct filePath as [[|c t]|]; try (intros []).
  unfold extractPathKeywords. intros Hw. apply in_flat_map in Hw.
  destruct Hw as (part & _ & Hw). apply filter_In in Hw. apply Hw.
Qed.

(* ================================================================= *)
(** ** What a ranked element holds *)

Lemma in_map_from {A B} (f : A -> nat -> B) (xs : list A) (y : B) :
  forall i, In y (map_from i f xs) ->
            exists k x, nth_error xs k = Some x /\ y = f x (i + k)%nat.
Proof.
  induction xs as [|x r IH]; intros i; cbn [map_from In]; [tauto|].
  intros [<-|Hin].
  - exists 0%nat, x. rewrite Nat.add_0_r. split; reflexivity.
  - destruct (IH _ Hin) as (k & x' & Hk & ->).
    exists (S k), x'. split; [exact Hk|]. f_equal. lia.
Qed.

Lemma ranked_in_scores now ctx sessions h x :
  In x (fst (calculateRelevanceScores now ctx sessions h)) <->
  In x (scoresArray now ctx h sessions).
Proof.
  rewrite calculateRelevanceScores_run. cbn [fst].
  split; apply Permutation_in;
    [apply sort_perm | apply Permutation_sym, sort_perm].
Qed.

Lemma nth_keywords_plain (h : heap) (sessions : list ref) (i : nat) :
  Forall plain
    (nth i (List.map (fun s => extractSessionKeywords (h s)) sessions) []).
Proof.
  destruct (nth_in_or_default i
              (List.map (fun s => extractSessionKeywords (h s)) sessions) [])
    as [Hin| ->]; [|constructor].
  apply in_map_iff in Hin. destruct Hin as (s & <- & _).
  apply extractSessionKeywords_plain.
Qed.

Lemma scores_components now ctx h sessions x :
  In x (scoresArray now ctx h sessions) ->
  In (session x) sessions
  /\ timeWeight x = computeTimeWeight now (date (h (session x)))
  /\ conversationBonus x
     = (if hasConversations (h (session x)) then Num 0.15 else Num 0)
  /\ (exists r, similarity x = Num r)
  /\ score x = js_min (preClampScore x) (Num 1).
Proof.
  unfold scoresArray. intros Hin.
  apply in_map_from in Hin. destruct Hin as (k & s & Hk & ->).
  cbn [session timeWeight conversationBonus similarity score scoreSession].
  repeat split.
  - eapply nth_error_In, Hk.
  - apply similarity_is_number.
    + apply contextKeywordsOf_plain.
    + apply nth_keywords_plain.
Qed.

Lemma js_min_num (a b : R) : js_min (Num a) (Num b) = Num (Rmin a b).
Proof. reflexivity. Qed.

Lemma finalScore_num (s t b : R) :
  finalScore (Num s) (Num t) (Num b) = Num (s * 0.4 + t * 0.45 + b).
Proof. reflexivity. Qed.

Lemma bonus_is_number (s : Session) :
  exists b, (if hasConversations s then Num 0.15 else Num 0) = Num b.
Proof. destruct (hasConversations s); eauto. Qed.

Lemma scores_with_date_are_numbers now ctx h sessions x t :
  In x (scoresArray now ctx h sessions) ->
  date (h (session x)) = Some t ->
  scored_num x.
Proof.
  intros Hin Hd.
  destruct (scores_components now ctx h sessions x Hin)
    as (_ & Htw & Hb & [r Hs] & Hsc).
  unfold scored_num, preClampScore in *.
  destruct (bonus_is_number (h (session x))) as [b Hb'].
  rewrite Hsc, Hs, Htw, Hb, Hb', Hd, TimeDecay.computeTimeWeight_parsed.
  rewrite finalScore_num, js_min_num. eauto.
Qed.

(* ================================================================= *)
(** ** The ranking: time weight, order, frame *)

Lemma ranking_singleton now ctx s h :
  fst (calculateRelevanceScores now ctx [s] h) = scoresArray now ctx h [s].
Proof. rewrite calculateRelevanceScores_run. reflexivity. Qed.

Lemma scoresArray_singleton_head now ctx s h :
  exists x, scoresArray now ctx h [s] = [x] /\ session x = s.
Proof. eexists. split; reflexivity. Qed.

Lemma ranked_timeWeight now ctx sessions h x :
  In x (fst (calculateRelevanceScores now ctx sessions h)) ->
  timeWeight x = computeTimeWeight now (date (h (session x))).
Proof.
  intros Hin. apply ranked_in_scores in Hin.
  apply (scores_components now ctx h sessions x Hin).
Qed.

Lemma score_without_date now ctx h sessions x :
  In x (scoresArray now ctx h sessions) ->
  date (h (session x)) = None ->
  timeWeight x = NaN /\ score x = NaN.
Proof.
  intros Hin Hd.
  destruct (scores_components now ctx h sessions x Hin)
    as (_ & Htw & Hb & [r Hs] & Hsc).
  rewrite Hd in Htw. cbn in Htw. split; [exact Htw|].
  unfold preClampScore in Hsc. rewrite Hsc, Hs, Htw, Hb.
  destruct (hasConversations (h (session x))); reflexivity.
Qed.

(** C1 (as the code has it).  For every ranked session: dated exactly
    now, its time weight is 1; dated exactly 14 days before now, it is
    exp(-1); dated exactly 24 hours before now, it is exp(-1/14), because
    the linear branch is taken for strictly less than 24 hours only. *)
Theorem time_weight_boundary_values now ctx sessions h x :
  In x (fst (calculateRelevanceScores now ctx sessions h)) ->
  (date (h (session x)) = Some now -> timeWeight x = Num 1)
  /\ (date (h (session x)) = Some (now - 14 * msPerDay)%Z ->
      timeWeight x = Num (exp (- 1)))
  /\ (date (h (session x)) = Some (now - msPerDay)%Z ->
      timeWeight x = Num (exp (- 1 / 14))).
Proof.
  intros Hin. rewrite (ranked_timeWeight _ _ _ _ _ Hin).
  repeat split; intros ->; rewrite TimeDecay.computeTimeWeight_parsed;
    f_equal.
  - unfold hoursSince, msPerHour.
    destruct (Rlt_dec _ 24) as [_|H]; [lra | exfalso; apply H; lra].
  - rewrite TimeDecay.hoursSince_shift. unfold msPerDay, msPerHour.
    rewrite mult_IZR.
    destruct (Rlt_dec _ 24) as [H|_]; [exfalso; lra | f_equal; lra].
  - rewrite TimeDecay.hoursSince_shift. unfold msPerDay, msPerHour.
    destruct (Rlt_dec _ 24) as [H|_]; [exfalso; lra | f_equal; lra].
Qed.

Lemma time_weight_boundary_values_witness :
  exists x,
    In x (fst (calculateRelevanceScores (14 * msPerDay) ctx_auth [0%nat]
                 (heap_of [bareSession (Some 0%Z) None])))
    /\ timeWeight x = Num (exp (- 1)).
Proof.
  destruct (scoresArray_singleton_head (14 * msPerDay) ctx_auth 0%nat
              (heap_of [bareSession (Some 0%Z) None])) as (x & Hx & Hs).
  exists x.
  assert (Hin : In x (fst (calculateRelevanceScores (14 * msPerDay) ctx_auth
                             [0%nat] (heap_of [bareSession (Some 0%Z) None])))).
  { rewrite ranking_singleton, Hx. left. reflexivity. }
  split; [exact Hin|].
  apply (time_weight_boundary_values _ _ _ _ _ Hin).
  rewrite Hs. reflexivity.
Defined.

(** C1, the sentence as written fails: a session dated exactly 24 hours
    before now does not get the time weight 0.5. *)
Lemma time_weight_at_24h_counterexample :
  exists x,
    In x (fst (calculateRelevanceScores msPerDay ctx_auth [0%nat]
                 (heap_of [bareSession (Some 0%Z) None])))
    /\ date (heap_of [bareSession (Some 0%Z) None] (session x))
       = Some (msPerDay - msPerDay)%Z
    /\ timeWeight x <> Num 0.5.
Proof.
  destruct (scoresArray_singleton_head msPerDay ctx_auth 0%nat
              (heap_of [bareSession (Some 0%Z) None])) as (x & Hx & Hs).
  exists x.
  assert (Hin : In x (fst (calculateRelevanceScores msPerDay ctx_auth
                             [0%nat] (heap_of [bareSession (Some 0%Z) None])))).
  { rewrite ranking_singleton, Hx. left. reflexivity. }
  split; [exact Hin|]. split; [rewrite Hs; reflexivity|].
  rewrite (ranked_timeWeight _ _ _ _ _ Hin), Hs.
  change (date (heap_of [bareSession (Some 0%Z) None] 0%nat))
    with (Some (msPerDay - msPerDay)%Z).
  rewrite TimeDecay.computeTimeWeight_parsed, TimeDecay.hoursSince_shift.
  unfold msPerDay, msPerHour.
  destruct (Rlt_dec _ 24) as [H|_]; [exfalso; lra|].
  intros [= E]. pose proof TimeDecay.exp_above_half as Hh.
  replace (- (86400000 / 3600000 / 24) / 14) with (- 1 / 14) in E by lra.
  lra.
Qed.



(** C3 (as the code has it).  Ranking a corpus is a total function, so
    nothing is raised; a ranked session whose date is missing or does not
    parse gets the time weight NaN, and its final score is NaN. *)
Theorem unparsed_date_gives_nan now ctx sessions h x :
  In x (fst (calculateRelevanceScores now ctx sessions h)) ->
  date (h (session x)) = None ->
  timeWeight x = NaN /\ score x = NaN.
Proof.
  intros Hin. apply ranked_in_scores in Hin.
  apply (score_without_date now ctx h sessions x Hin).
Qed.

Lemma unparsed_date_gives_nan_witness :
  exists x,
    In x (fst (calculateRelevanceScores 0 ctx_auth [0%nat]
                 (heap_of [bareSession None None])))
    /\ timeWeight x = NaN /\ score x = NaN.
Proof.
  destruct (scoresArray_singleton_head 0 ctx_auth 0%nat
              (heap_of [bareSession None None])) as (x & Hx & Hs).
  exists x.
  assert (Hin : In x (fst (calculateRelevanceScores 0 ctx_auth
                             [0%nat] (heap_of [bareSession None None])))).
  { rewrite ranking_singleton, Hx. left. reflexivity. }
  split; [exact Hin|].
  apply (unparsed_date_gives_nan _ _ _ _ _ Hin).
  rewrite Hs. reflexivity.
Defined.

(** C3, the sentence as written fails: the session without a date is
    ranked with a time weight that is not 0 and a score that is no
    number. *)
Lemma unparsed_date_counterexample :
  exists x,
    In x (fst (calculateRelevanceScores 0 ctx_auth [0%nat]
                 (heap_of [bareSession None None])))
    /\ date (heap_of [bareSession None None] (session x)) = None
    /\ timeWeight x <> Num 0
    /\ ~ scored_num x.
Proof.
  destruct (scoresArray_singleton_head 0 ctx_auth 0%nat
              (heap_of [bareSession None None])) as (x & Hx & Hs).
  exists x.
  assert (Hin : In x (scoresArray 0 ctx_auth (heap_of [bareSession None None])
                        [0%nat])).
  { unfold ref in Hx. rewrite Hx. left. reflexivity. }
  assert (Hd : date (heap_of [bareSession None None] (session x)) = None)
    by (rewrite Hs; reflexivity).
  destruct (score_without_date _ _ _ _ _ Hin Hd) as [Htw Hsc].
  repeat split.
  - rewrite ranking_singleton. exact Hin.
  - exact Hd.
  - rewrite Htw. discriminate.
  - intros [r Hr]. rewrite Hsc in Hr. discriminate.
Qed.

Lemma scores_all_numbers now ctx h sessions :
  (forall s, In s sessions -> date (h s) <> None) ->
  Forall scored_num (scoresArray now ctx h sessions).
Proof.
  intros Hd. apply Forall_forall. intros x Hin.
  destruct (scores_components now ctx h sessions x Hin) as (Hs & _).
  specialize (Hd _ Hs).
  destruct (date (h (session x))) as [t|] eqn:E; [|contradiction].
  eapply scores_with_date_are_numbers; eassumption.
Qed.

(** C8 (as the code has it).  When the date of every session of the
    corpus parses, the ranking is ordered by non-increasing score, and
    sessions with equal scores keep the order they have in the corpus. *)
Theorem ranking_sorted_and_stable now ctx sessions h :
  (forall s, In s sessions -> date (h s) <> None) ->
  let ranked := fst (calculateRelevanceScores now ctx sessions h) in
  descending ranked
  /\ ties_keep_order (scoresArray now ctx h sessions) ranked.
Proof.
  intros Hd ranked. unfold ranked.
  rewrite calculateRelevanceScores_run. cbn [fst]. split.
  - apply sort_descending, scores_all_numbers, Hd.
  - apply sort_ties_keep_order.
Qed.

Lemma ranking_sorted_and_stable_witness :
  let h := heap_of [bareSession (Some 0%Z) None; bareSession (Some 5%Z) None] in
  let ranked := fst (calculateRelevanceScores 7 ctx_auth [0%nat; 1%nat] h) in
  descending ranked
  /\ ties_keep_order (scoresArray 7 ctx_auth h [0%nat; 1%nat]) ranked.
Proof.
  intros h. apply ranking_sorted_and_stable.
  intros s [<-|[<-|[]]]; discriminate.
Defined.

(** C8, the sentence as written fails: with a session whose date does
    not parse in the corpus, the returned sequence is not ordered by
    non-increasing score. *)
Lemma ranking_order_counterexample :
  ~ descending
      (fst (calculateRelevanceScores 7 ctx_auth [0%nat; 1%nat]
              (heap_of [bareSession None None; bareSession (Some 5%Z) None]))).
Proof.
  set (h := heap_of [bareSession None None; bareSession (Some 5%Z) None]).
  rewrite calculateRelevanceScores_run. cbn [fst].
  assert (Hx : exists x0 x1,
             scoresArray 7 ctx_auth h [0%nat; 1%nat] = [x0; x1]
             /\ session x0 = 0%nat)
    by (do 2 eexists; split; reflexivity).
  destruct Hx as (x0 & x1 & Hx & Hs0).
  assert (H0 : score x0 = NaN).
  { apply (score_without_date 7 ctx_auth h [0%nat; 1%nat]).
    - unfold ref in Hx. rewrite Hx. left. reflexivity.
    - rewrite Hs0. reflexivity. }
  unfold ref in Hx. rewrite Hx.
  cbn [sort fold_right insert].
  unfold compareScores at 1. rewrite H0.
  replace (js_sub (score x1) NaN) with NaN
    by (unfold js_sub; destruct (toNumber (score x1)); reflexivity).
  cbn [js_lt toNumber descending].
  intros [(a & b & Ha & _) _]. rewrite H0 in Ha. discriminate.
Qed.

(** C9.  Ranking leaves the heap as it found it, so no field of any
    session record changes, and the [session] fields of the result are
    the references of the corpus, each exactly once. *)
Theorem ranking_reads_only now ctx sessions h :
  snd (calculateRelevanceScores now ctx sessions h) = h
  /\ Permutation
       (List.map session (fst (calculateRelevanceScores now ctx sessions h)))
       sessions.
Proof.
  rewrite calculateRelevanceScores_run. cbn [fst snd]. split; [reflexivity|].
  rewrite <- (scoresArray_session now ctx h sessions) at 2.
  apply Permutation_map, sort_perm.
Qed.

Lemma all_digits_2024 : all_digits (str "2024") = true.
Proof. vm_compute. reflexivity. Qed.

Lemma extractKeywords_filtered (text : option jsstring) (w : jsstring) :
  In w (extractKeywords text) ->
  (2 <= len w)%nat /\ is_stopword w = false /\ all_digits w = false.
Proof.
  destruct text as [[|c t]|]; try (intros []).
  unfold extractKeywords. intros Hw. apply filter_In in Hw.
  destruct Hw as [_ Hw].
  destruct (len w <? 2)%nat eqn:E1; [discriminate|].
  destruct (is_stopword w); [discriminate|].
  destruct (all_digits w); [discriminate|].
  apply Nat.ltb_ge in E1. auto.
Qed.

(** C10.  Every token of the path tokenizer has at least two code units
    and is no stopword; some path makes it return a token made of digits
    only, which the text tokenizer never returns. *)
Theorem path_tokens_filtered_but_digits_kept :
  (forall filePath w,
      In w (extractPathKeywords filePath) ->
      (2 <= len w)%nat /\ is_stopword w = false)
  /\ (exists filePath w,
         In w (extractPathKeywords filePath) /\ all_digits w = true)
  /\ (forall text w, In w (extractKeywords text) -> all_digits w = false).
Proof.
  repeat split.
  - apply extractPathKeywords_filtered in H. unfold path_word_ok in H.
    apply andb_true_iff in H. destruct H as [H _].
    apply Nat.ltb_lt in H. lia.
  - apply extractPathKeywords_filtered in H. unfold path_word_ok in H.
    apply andb_true_iff in H. destruct H as [_ H].
    apply negb_true_iff in H. exact H.
  - exists (Some (str "/logs/2024/app.js")), (str "2024"). split.
    + vm_compute. right. left. reflexivity.
    + apply all_digits_2024.
  - intros text w H. apply (extractKeywords_filtered text w H).
Qed.

Lemma path_tokens_filtered_but_digits_kept_witness :
  In (str "2024") (extractPathKeywords (Some (str "/logs/2024/app.js")))
  /\ (2 <= len (str "2024"))%nat /\ is_stopword (str "2024") = false.
Proof.
  assert (Hin : In (str "2024")
                  (extractPathKeywords (Some (str "/logs/2024/app.js"))))
    by (vm_compute; right; left; reflexivity).
  split; [exact Hin|].
  exact (proj1 path_tokens_filtered_but_digits_kept _ _ Hin).
Defined.

(* ================================================================= *)
(** ** The structural bonus *)

Lemma inherited_not_proto (w : jsstring) : inherited w = false -> w <> PROTO.
Proof. intros H ->. vm_compute in H. discriminate. Qed.

Lemma set_fresh (w : jsstring) (v : value) :
  w <> PROTO -> set [] w v = [(w, v)].
Proof.
  intros H. unfold set. fold PROTO. apply str_eqb_neq in H. rewrite H.
  reflexivity.
Qed.


Lemma get_single (w : jsstring) (v : value) : get [(w, v)] w = v.
Proof. unfold get. cbn [own]. rewrite str_eqb_refl. reflexivity. Qed.




Lemma calculateTF_nil : calculateTF [] = [].
Proof. reflexivity. Qed.









Lemma in_allWordsOf (vec1 vec2 : object) (w : jsstring) :
  In w (allWordsOf vec1 vec2) <-> In w (keys vec1) \/ In w (keys vec2).
Proof. unfold allWordsOf. rewrite in_unique, in_app_iff. reflexivity. Qed.












(* ================================================================= *)
(** ** Tokens that name a property of [Object.prototype] *)

(** C6, at the token sequence [["constructor"]]: the counting loop reads
    the inherited [constructor] function and stores a string, the maximum
    becomes NaN, and the only value of the vector is NaN: it does not lie
    in (0, 1] and no value is 1. *)
Theorem calculateTF_constructor :
  calculateTF [CONSTRUCTOR] = [(CONSTRUCTOR, NaN)].
Proof. vm_compute. reflexivity. Qed.

(** C7, at the token sequence [["constructor"]] with the document
    frequency 1 out of 1 document: the weight is NaN, neither the value of
    the formula (which is 1) nor strictly positive. *)
Theorem calculateTFIDF_constructor :
  calculateTFIDF [CONSTRUCTOR] [(CONSTRUCTOR, Num 1)] 1
  = [(CONSTRUCTOR, NaN)].
Proof.
  unfold calculateTFIDF.
  replace (calculateTF [CONSTRUCTOR]) with [(CONSTRUCTOR, NaN)]
    by (vm_compute; reflexivity).
  cbn [keys List.map fst fold_left]. rewrite get_single.
  rewrite js_mul_nan_l by reflexivity.
  apply set_fresh, constructor_not_proto.
Qed.

(** C5, at the empty vector and the vector [{constructor: 1}]: the
    empty vector has norm zero, yet the result is NaN and not 0, because
    the absent coordinate is read from [Object.prototype]. *)
Theorem cosineSimilarity_constructor :
  cosineSimilarity [] [(CONSTRUCTOR, Num 1)] = NaN.
Proof.
  rewrite cosineSimilarity_eq. unfold allWordsOf.
  cbn [keys List.map fst app unique filter fold_left].
  unfold dotStep. rewrite get_single.
  replace (get [] CONSTRUCTOR) with Junk by (vm_compute; reflexivity).
  cbn [or_zero js_mul js_add toNumber js_is_zero orb].
  destruct (Req_dec_T (0 + 1 * 1) 0) as [E|_]; [exfalso; lra|].
  reflexivity.
Qed.

(* ================================================================= *)
(** ** Term frequency and TF-IDF of ordinary tokens *)

Lemma own_iff_In (o : object) (w : jsstring) (v : value) :
  NoDup (keys o) -> (own o w = Some v <-> In (w, v) o).
Proof.
  induction o as [|[k0 v0] r IH]; cbn [own keys List.map fst In].
  - intros _. split; [discriminate | tauto].
  - intros Hnd. inversion Hnd as [|? ? Hk0 Hr]; subst.
    destruct (str_eqb k0 w) eqn:E.
    + apply str_eqb_eq in E. subst k0. split.
      * intros [= ->]. left. reflexivity.
      * intros [[= ->]|Hin]; [reflexivity|].
        exfalso. apply Hk0. apply in_map_iff. exists (w, v). auto.
    + apply str_eqb_neq in E. rewrite (IH Hr). split; [tauto|].
      intros [[= -> ->]|Hin]; [contradiction | exact Hin].
Qed.

Lemma clean_tokens_not_proto (kws : list jsstring) :
  Forall clean kws ->
  forall k, In k kws -> inherited k = true -> k = PROTO.
Proof.
  intros Hc k Hk Hi. rewrite Forall_forall in Hc.
  specialize (Hc k Hk). unfold clean in Hc. congruence.
Qed.

Lemma counted_of_clean (kws : list jsstring) (w : jsstring) :
  Forall clean kws -> In w kws ->
  counted kws w = Some (Num (INR (occ w kws))) /\ 1 <= INR (occ w kws).
Proof.
  intros Hc Hin. pose proof Hin as Hpos. apply occ_pos in Hpos.
  rewrite Forall_forall in Hc. specialize (Hc w Hin). unfold clean in Hc.
  unfold counted. rewrite Hc.
  pose proof (inherited_not_proto w Hc) as Hp. apply str_eqb_neq in Hp.
  rewrite Hp. destruct (occ w kws) as [|n] eqn:E; [lia|].
  split; [reflexivity|]. rewrite S_INR. pose proof (pos_INR n). lra.
Qed.

Lemma calculateTF_values_clean (kws : list jsstring) :
  Forall clean kws ->
  exists m,
    maxFreqOf kws = Num m /\ 1 <= m
    /\ (forall w, In w kws ->
                  own (calculateTF kws) w = Some (Num (INR (occ w kws) / m))
                  /\ 1 <= INR (occ w kws) <= m)
    /\ (forall w, ~ In w kws -> own (calculateTF kws) w = None)
    /\ (m = 1 \/ exists w, In w kws /\ INR (occ w kws) = m).
Proof.
  intros Hc.
  destruct (maxFreqOf_clean kws (clean_tokens_not_proto kws Hc))
    as (m & Hm & H1 & Hle & Hmax).
  exists m. split; [exact Hm|]. split; [exact H1|]. repeat split.
  - rewrite own_calculateTF, Hm.
    destruct (counted_of_clean kws w Hc H) as [-> _]. cbn [option_map].
    rewrite js_div_num by lra. reflexivity.
  - apply (counted_of_clean kws w Hc H).
  - destruct (counted_of_clean kws w Hc H) as [Hcw _].
    destruct (Hle _ _ Hcw) as (c & [= <-] & Hc2). lra.
  - intros w Hn. rewrite own_calculateTF. unfold counted.
    destruct (str_eqb w PROTO); [reflexivity|].
    destruct (occ w kws) eqn:E; [reflexivity|].
    exfalso. apply Hn, occ_pos. lia.
  - destruct Hmax as [->|[w Hw]]; [left; reflexivity | right].
    exists w. unfold counted in Hw.
    destruct (str_eqb w PROTO); [discriminate|].
    destruct (occ w kws) as [|n] eqn:E; [discriminate|].
    assert (Hin : In w kws) by (apply occ_pos; lia).
    destruct (counted_of_clean kws w Hc Hin) as [Hcw _].
    unfold counted in Hcw.
    rewrite Forall_forall in Hc. specialize (Hc w Hin). unfold clean in Hc.
    rewrite Hc in Hw. injection Hw as Hw. split; [exact Hin|].
    exact Hw.
Qed.

(** X1.  Term-frequency bound: for a non-empty token sequence none of whose
    tokens names a property of [Object.prototype], the keys of the vector
    are the distinct tokens, every value lies in (0, 1], and some value is
    exactly 1. *)
Theorem calculateTF_bound (kws : list jsstring) :
  Forall clean kws -> kws <> [] ->
  NoDup (keys (calculateTF kws))
  /\ (forall w, In w (keys (calculateTF kws)) <-> In w kws)
  /\ (forall w v, In (w, v) (calculateTF kws) ->
                  exists r, v = Num r /\ 0 < r <= 1)
  /\ (exists w, In (w, Num 1) (calculateTF kws)).
Proof.
  intros Hc Hne.
  destruct (calculateTF_values_clean kws Hc)
    as (m & Hm & H1 & Hin & Hout & Hmax).
  destruct (wf_calculateTF kws) as [Hnd _].
  split; [exact Hnd|]. split; [|split].
  - intros w. rewrite in_keys_calculateTF. split; [tauto|].
    intros Hw. split; [exact Hw|].
    rewrite Forall_forall in Hc. apply inherited_not_proto, Hc, Hw.
  - intros w v Hwv. apply own_iff_In in Hwv; [|exact Hnd].
    destruct (in_dec (list_eq_dec N.eq_dec) w kws) as [Hi|Hn].
    + destruct (Hin w Hi) as [Hown [Hlo Hhi]]. rewrite Hown in Hwv.
      injection Hwv as <-. eexists. split; [reflexivity|].
      split.
      * apply Rdiv_lt_0_compat; lra.
      * apply Rmult_le_reg_r with (r := m); [lra|].
        unfold Rdiv. rewrite Rmult_assoc, Rinv_l by lra. lra.
    + rewrite (Hout w Hn) in Hwv. discriminate.
  - destruct Hmax as [->|(w & Hw & Hocc)].
    + destruct kws as [|w r]; [contradiction|].
      assert (Hw : In w (w :: r)) by (left; reflexivity).
      destruct (Hin w Hw) as [Hown [Hlo Hhi]].
      exists w. apply own_iff_In; [exact Hnd|]. rewrite Hown.
      do 2 f_equal. replace (INR (occ w (w :: r))) with 1 by lra. field.
    + destruct (Hin w Hw) as [Hown _].
      exists w. apply own_iff_In; [exact Hnd|]. rewrite Hown, Hocc.
      do 2 f_equal. field. lra.
Qed.

Lemma calculateTF_bound_witness :
  exists w, In (w, Num 1) (calculateTF [AUTH; str "login"; AUTH]).
Proof.
  apply (calculateTF_bound [AUTH; str "login"; AUTH]).
  - repeat constructor.
  - discriminate.
Defined.

(** X2.  [calculateTF] never stores a property called [__proto__], and an
    inherited name among the tokens turns every value into NaN. *)
Theorem calculateTF_prototype_names (kws : list jsstring) :
  ~ In PROTO (keys (calculateTF kws))
  /\ (forall k, In k kws -> inherited k = true -> k <> PROTO ->
                forall w v, In (w, v) (calculateTF kws) -> v = NaN).
Proof.
  destruct (wf_calculateTF kws) as [Hnd Hp]. split; [exact Hp|].
  intros k Hk Hi Hkp w v Hwv. apply own_iff_In in Hwv; [|exact Hnd].
  rewrite own_calculateTF, (maxFreqOf_poisoned kws k Hk Hi Hkp) in Hwv.
  destruct (counted kws w); [|discriminate]. cbn in Hwv.
  injection Hwv as <-. apply js_div_nan_r. reflexivity.
Qed.

Lemma ln_nonneg (x : R) : 1 <= x -> 0 <= ln x.
Proof.
  intros [H|<-]; [|rewrite ln_1; lra].
  rewrite <- ln_1. left. apply ln_increasing; lra.
Qed.

Lemma idf_of_count (df : object) (n : nat) (w : jsstring) (d : R) :
  or_zero (get df w) = Num d -> 0 <= d ->
  idf df n w = Num (ln ((INR n + 1) / (d + 1)) + 1).
Proof.
  intros Hd Hpos. unfold idf. rewrite Hd. cbn [js_add].
  rewrite js_div_num by lra. unfold js_log. cbn [toNumber].
  destruct (Rlt_dec 0 ((INR n + 1) / (d + 1))) as [_|H]; [reflexivity|].
  exfalso. apply H. pose proof (pos_INR n). apply Rdiv_lt_0_compat; lra.
Qed.

(** X3.  TF-IDF of ordinary tokens: when no token names a property of
    [Object.prototype] and the table gives every token a non-negative
    number [d] (0 when it is absent), the token is mapped to
    [tf * (ln ((N + 1) / (d + 1)) + 1)]; the weight is strictly positive
    as soon as [d <= N]. *)
Theorem calculateTFIDF_formula
    (kws : list jsstring) (df : object) (n : nat) (w : jsstring) (d : R) :
  Forall clean kws -> In w kws ->
  or_zero (get df w) = Num d -> 0 <= d ->
  exists tf,
    In (w, Num tf) (calculateTF kws)
    /\ In (w, Num (tf * (ln ((INR n + 1) / (d + 1)) + 1)))
          (calculateTFIDF kws df n)
    /\ (d <= INR n -> 0 < tf * (ln ((INR n + 1) / (d + 1)) + 1)).
Proof.
  intros Hc Hin Hd Hpos.
  destruct (calculateTF_values_clean kws Hc) as (m & _ & H1 & Hval & _).
  destruct (Hval w Hin) as [Hown [Hlo Hhi]].
  exists (INR (occ w kws) / m).
  destruct (wf_calculateTF kws) as [Hnd _].
  split; [apply own_iff_In; assumption|]. split.
  - apply own_iff_In.
    + assert (Hwf : wf (calculateTFIDF kws df n)).
      { rewrite calculateTFIDF_loop. apply wf_fold_set; [|apply wf_nil].
        intros o x Ho. apply wf_set, Ho. }
      apply Hwf.
    + rewrite own_calculateTFIDF, Hown. cbn [option_map].
      rewrite (idf_of_count df n w d Hd Hpos). reflexivity.
  - intros Hle. apply Rmult_lt_0_compat.
    + apply Rdiv_lt_0_compat; lra.
    + assert (0 <= ln ((INR n + 1) / (d + 1))); [|lra].
      apply ln_nonneg.
      apply Rmult_le_reg_r with (r := d + 1); [lra|].
      unfold Rdiv. rewrite Rmult_assoc, Rinv_l by lra. lra.
Qed.

Lemma calculateTFIDF_formula_witness :
  exists tf,
    In (AUTH, Num tf) (calculateTF [AUTH])
    /\ In (AUTH, Num (tf * (ln ((INR 1 + 1) / (1 + 1)) + 1)))
          (calculateTFIDF [AUTH] [(AUTH, Num 1)] 1)
    /\ (1 <= INR 1 -> 0 < tf * (ln ((INR 1 + 1) / (1 + 1)) + 1)).
Proof.
  apply (calculateTFIDF_formula [AUTH] [(AUTH, Num 1)] 1 AUTH 1).
  - repeat constructor.
  - left. reflexivity.
  - rewrite get_single. reflexivity.
  - lra.
Defined.

(* ================================================================= *)
(** ** Document frequency *)

Lemma calculateDF_flat (documents : list (list jsstring)) :
  calculateDF documents = fold_left increment (flat_map unique documents) [].
Proof.
  unfold calculateDF. generalize (@nil (jsstring * value)).
  induction documents as [|doc r IH]; intros o; cbn [fold_left flat_map].
  - reflexivity.
  - rewrite fold_left_app. apply IH.
Qed.

Lemma occ_NoDup (w : jsstring) (l : list jsstring) :
  NoDup l -> occ w l = if existsb (str_eqb w) l then 1%nat else 0%nat.
Proof.
  unfold occ. induction l as [|x r IH]; intros Hnd; [reflexivity|].
  inversion Hnd as [|? ? Hx Hr]; subst. cbn [filter existsb].
  destruct (str_eqb w x) eqn:E; cbn [orb List.length].
  - apply str_eqb_eq in E. subst x. rewrite (IH Hr).
    destruct (existsb (str_eqb w) r) eqn:Er; [|reflexivity].
    apply existsb_exists in Er. destruct Er as (y & Hy & Ey).
    apply str_eqb_eq in Ey. subst y. contradiction.
  - apply IH, Hr.
Qed.

Lemma existsb_unique (w : jsstring) (doc : list jsstring) :
  existsb (str_eqb w) (unique doc) = existsb (str_eqb w) doc.
Proof.
  destruct (existsb (str_eqb w) doc) eqn:E.
  - apply existsb_exists in E. destruct E as (y & Hy & Ey).
    apply existsb_exists. exists y. split; [apply in_unique, Hy | exact Ey].
  - destruct (existsb (str_eqb w) (unique doc)) eqn:E'; [|reflexivity].
    apply existsb_exists in E'. destruct E' as (y & Hy & Ey).
    apply -> in_unique in Hy.
    assert (existsb (str_eqb w) doc = true)
      by (apply existsb_exists; exists y; split; assumption).
    congruence.
Qed.

Lemma occ_flat_unique (w : jsstring) (documents : list (list jsstring)) :
  occ w (flat_map unique documents) = docFreq w documents.
Proof.
  unfold docFreq.
  induction documents as [|doc r IH]; cbn [flat_map filter]; [reflexivity|].
  rewrite occ_app, IH, (occ_NoDup w (unique doc) (NoDup_unique doc)).
  rewrite existsb_unique.
  destruct (existsb (str_eqb w) doc); reflexivity.
Qed.

Lemma docFreq_le (w : jsstring) (documents : list (list jsstring)) :
  (docFreq w documents <= List.length documents)%nat.
Proof. unfold docFreq. apply filter_length_le. Qed.

Lemma calculateDF_own (documents : list (list jsstring)) (w : jsstring) :
  inherited w = false ->
  own (calculateDF documents) w
  = match docFreq w documents with
    | O => None
    | S n => Some (Num (INR (S n)))
    end.
Proof.
  intros Hw. rewrite calculateDF_flat, counts_own. unfold counted.
  pose proof (inherited_not_proto w Hw) as Hp. apply str_eqb_neq in Hp.
  rewrite Hp, occ_flat_unique, Hw. reflexivity.
Qed.

(** X4.  Document frequency: for a word that names no property of
    [Object.prototype], the table holds the number of documents in which
    the word occurs (the word is absent when that number is 0); this
    number never exceeds the number of documents and never decreases when
    a document is added. *)
Theorem calculateDF_counts
    (documents : list (list jsstring)) (w : jsstring) :
  inherited w = false ->
  or_zero (get (calculateDF documents) w) = Num (INR (docFreq w documents))
  /\ (In w (keys (calculateDF documents)) <->
      exists doc, In doc documents /\ In w doc)
  /\ (docFreq w documents <= List.length documents)%nat
  /\ (forall doc, docFreq w documents <= docFreq w (documents ++ [doc]))%nat.
Proof.
  intros Hw. pose proof (calculateDF_own documents w Hw) as Hown.
  split; [|split; [|split]].
  - unfold get. rewrite Hown.
    destruct (docFreq w documents); [rewrite Hw|]; reflexivity.
  - split.
    + intros Hk. apply in_keys_own in Hk. destruct Hk as [v Hv].
      rewrite Hown in Hv. unfold docFreq in Hv.
      destruct (filter _ documents) as [|doc r] eqn:E; [discriminate|].
      assert (Hd : In doc (filter (fun doc => existsb (str_eqb w) doc) documents)).
      { rewrite E. left. reflexivity. }
      apply filter_In in Hd. destruct Hd as [Hd He].
      apply existsb_exists in He. destruct He as (y & Hy & Ey).
      apply str_eqb_eq in Ey. subst y. eauto.
    + intros (doc & Hd & Hin).
      assert (Hf : In doc (filter (fun doc => existsb (str_eqb w) doc) documents)).
      { apply filter_In. split; [exact Hd|].
        apply existsb_exists. exists w. split; [exact Hin | apply str_eqb_refl]. }
      destruct (own (calculateDF documents) w) as [v|] eqn:E;
        [eapply own_Some_in_keys, E|].
      unfold docFreq in Hown.
      destruct (filter (fun doc => existsb (str_eqb w) doc) documents);
        [destruct Hf | cbn [List.length] in Hown; discriminate].
  - apply docFreq_le.
  - intros doc. unfold docFreq. rewrite filter_app, length_app. lia.
Qed.

Lemma calculateDF_counts_witness :
  or_zero (get (calculateDF [[AUTH; AUTH]; []; [str "login"; AUTH]]) AUTH)
  = Num (INR (docFreq AUTH [[AUTH; AUTH]; []; [str "login"; AUTH]])).
Proof.
  apply (calculateDF_counts [[AUTH; AUTH]; []; [str "login"; AUTH]] AUTH).
  reflexivity.
Defined.

(* ================================================================= *)
(** ** Cosine similarity of ordinary vectors *)

Lemma rsum_nonneg (f : jsstring -> R) (ws : list jsstring) :
  (forall w, In w ws -> 0 <= f w) -> 0 <= rsum f ws.
Proof.
  induction ws as [|w r IH]; intros H; cbn [rsum]; [lra|].
  assert (0 <= f w) by (apply H; left; reflexivity).
  assert (0 <= rsum f r) by (apply IH; intros w' Hw'; apply H; right; exact Hw').
  lra.
Qed.

(** Products that are never negative give a similarity that is not
    negative. *)
Lemma cosine_nonneg_numeric (vec1 vec2 : object) :
  (forall w, In w (allWordsOf vec1 vec2) -> numeric vec1 w /\ numeric vec2 w) ->
  (forall w, In w (allWordsOf vec1 vec2) -> 0 <= coord vec1 w * coord vec2 w) ->
  exists r, cosineSimilarity vec1 vec2 = Num r /\ 0 <= r.
Proof.
  intros Hnum Hpos. rewrite (cosine_numeric vec1 vec2 Hnum). cbv zeta.
  set (ws := allWordsOf vec1 vec2) in *.
  eexists. split; [reflexivity|].
  destruct (Req_dec_T (dot vec1 vec1 ws) 0) as [E1|E1]; [lra|].
  destruct (Req_dec_T (dot vec2 vec2 ws) 0) as [E2|E2]; [lra|].
  assert (H1 : 0 <= dot vec1 vec1 ws) by apply rsum_square_nonneg.
  assert (H2 : 0 <= dot vec2 vec2 ws) by apply rsum_square_nonneg.
  assert (Hd : 0 <= dot vec1 vec2 ws) by (apply rsum_nonneg, Hpos).
  assert (Hs1 : 0 < sqrt (dot vec1 vec1 ws)) by (apply sqrt_lt_R0; lra).
  assert (Hs2 : 0 < sqrt (dot vec2 vec2 ws)) by (apply sqrt_lt_R0; lra).
  assert (Hprod : 0 < sqrt (dot vec1 vec1 ws) * sqrt (dot vec2 vec2 ws))
    by (apply Rmult_lt_0_compat; assumption).
  apply Rmult_le_reg_r
    with (r := sqrt (dot vec1 vec1 ws) * sqrt (dot vec2 vec2 ws));
    [exact Hprod|].
  unfold Rdiv. rewrite Rmult_assoc, Rinv_l by lra. lra.
Qed.

(** Products that are all 0 give the similarity 0: the dot product is 0,
    whether or not a norm is. *)
Lemma cosine_orthogonal_numeric (vec1 vec2 : object) :
  (forall w, In w (allWordsOf vec1 vec2) -> numeric vec1 w /\ numeric vec2 w) ->
  (forall w, In w (allWordsOf vec1 vec2) -> coord vec1 w * coord vec2 w = 0) ->
  cosineSimilarity vec1 vec2 = Num 0.
Proof.
  intros Hnum Hz. rewrite (cosine_numeric vec1 vec2 Hnum). cbv zeta.
  f_equal.
  destruct (Req_dec_T _ 0); [reflexivity|].
  destruct (Req_dec_T _ 0); [reflexivity|].
  unfold dot at 1. rewrite (rsum_zero _ _ Hz).
  unfold Rdiv. apply Rmult_0_l.
Qed.

Lemma clean_vector_get_own (o : object) (w : jsstring) (v : value) :
  clean_vector o -> In (w, v) o -> get o w = v.
Proof.
  intros [Hnd _] Hin. apply get_own, own_iff_In; assumption.
Qed.

Lemma clean_vector_key (o : object) (w : jsstring) :
  clean_vector o -> In w (keys o) ->
  inherited w = false /\ exists a, In (w, Num a) o /\ get o w = Num a.
Proof.
  intros Hc Hk. pose proof Hc as [Hnd Hall].
  apply in_keys_own in Hk. destruct Hk as [v Hv].
  apply own_iff_In in Hv; [|exact Hnd].
  destruct (Hall w v Hv) as [Hi [a ->]].
  split; [exact Hi|]. exists a. split; [exact Hv|].
  apply clean_vector_get_own; assumption.
Qed.

Lemma clean_vector_lookup (o o' : object) (w : jsstring) :
  clean_vector o -> clean_vector o' ->
  In w (keys o) \/ In w (keys o') ->
  (exists a, In (w, Num a) o /\ or_zero (get o w) = Num a)
  \/ (~ In w (keys o) /\ or_zero (get o w) = Num 0).
Proof.
  intros Hc Hc' Hw.
  destruct (in_dec (list_eq_dec N.eq_dec) w (keys o)) as [Hi|Hn].
  - left. destruct (clean_vector_key o w Hc Hi) as (_ & a & Ha & Hg).
    exists a. rewrite Hg. auto.
  - right. split; [exact Hn|].
    destruct Hw as [Hw|Hw]; [contradiction|].
    destruct (clean_vector_key o' w Hc' Hw) as (Hinh & _).
    apply own_None in Hn. rewrite (get_absent _ _ Hn), Hinh. reflexivity.
Qed.

Lemma clean_vectors_numeric (vec1 vec2 : object) (w : jsstring) :
  clean_vector vec1 -> clean_vector vec2 ->
  In w (allWordsOf vec1 vec2) -> numeric vec1 w /\ numeric vec2 w.
Proof.
  intros H1 H2 Hw. apply in_allWordsOf in Hw.
  assert (Hw' : In w (keys vec2) \/ In w (keys vec1)) by tauto.
  split.
  - destruct (clean_vector_lookup vec1 vec2 w H1 H2 Hw)
      as [(a & _ & Ha)|[_ Ha]]; eexists; exact Ha.
  - destruct (clean_vector_lookup vec2 vec1 w H2 H1 Hw')
      as [(a & _ & Ha)|[_ Ha]]; eexists; exact Ha.
Qed.

Lemma clean_vector_coord (o o' : object) (w : jsstring) :
  clean_vector o -> clean_vector o' ->
  In w (keys o) \/ In w (keys o') ->
  (exists a, In (w, Num a) o /\ coord o w = a) \/ coord o w = 0.
Proof.
  intros Hc Hc' Hw. unfold coord.
  destruct (clean_vector_lookup o o' w Hc Hc' Hw) as [(a & Hin & ->)|[_ ->]];
    [left; eauto | right; reflexivity].
Qed.

(** X6.  Vectors that do not overlap: for two vectors whose keys name no
    property of [Object.prototype], if no key carries a non-zero entry in
    both of them (so in particular when they share no key, or when one of
    them is empty or holds only zeros) the similarity is exactly 0. *)
Theorem cosineSimilarity_no_overlap (vec1 vec2 : object) :
  clean_vector vec1 -> clean_vector vec2 ->
  (forall w a b, In (w, Num a) vec1 -> In (w, Num b) vec2 -> a = 0 \/ b = 0) ->
  cosineSimilarity vec1 vec2 = Num 0.
Proof.
  intros H1 H2 Hno. apply cosine_orthogonal_numeric.
  - intros w Hw. apply clean_vectors_numeric; assumption.
  - intros w Hw. apply in_allWordsOf in Hw.
    assert (Hw' : In w (keys vec2) \/ In w (keys vec1)) by tauto.
    destruct (clean_vector_coord vec1 vec2 w H1 H2 Hw) as [(a & Ha & ->)| ->];
      [|lra].
    destruct (clean_vector_coord vec2 vec1 w H2 H1 Hw') as [(b & Hb & ->)| ->];
      [|lra].
    destruct (Hno w a b Ha Hb) as [-> | ->]; lra.
Qed.

Lemma cosineSimilarity_no_overlap_witness :
  cosineSimilarity [(AUTH, Num 1)] [(str "login", Num 3); (AUTH, Num 0)]
  = Num 0.
Proof.
  apply cosineSimilarity_no_overlap.
  - split; [repeat constructor; intros [] |].
    intros w v [[= <- <-]|[]]. split; [reflexivity | eauto].
  - split.
    + repeat constructor; [intros [H|[]]; vm_compute in H; discriminate
                          | intros []].
    + intros w v [[= <- <-]|[[= <- <-]|[]]]; split; try reflexivity; eauto.
  - intros w a b [[= <- <-]|[]] [E|[E|[]]].
    + apply (f_equal fst) in E. vm_compute in E. discriminate.
    + right. congruence.
Defined.

(* ================================================================= *)
(** ** Ranges of the ranked components *)

Lemma tfidf_coord_factor (kws : list jsstring) (df : object) (n : nat)
      (w : jsstring) :
  (forall k, In k kws -> inherited k = true -> k = PROTO) ->
  exists t, 0 <= t
            /\ coord (calculateTFIDF kws df n) w = t * idf_value df n w.
Proof.
  intros Hc.
  destruct (maxFreqOf_clean kws Hc) as (m & Hm & H1 & Hle & _).
  unfold coord, get. rewrite own_calculateTFIDF, own_calculateTF, Hm.
  destruct (counted kws w) as [cv|] eqn:E; cbn [option_map].
  - destruct (Hle w cv E) as (c & -> & Hc0 & Hcm).
    rewrite js_div_num by lra.
    exists (c / m). split; [left; apply Rdiv_lt_0_compat; lra|].
    unfold idf_value. destruct (idf df n w); cbn; lra.
  - exists 0. split; [lra|].
    destruct (inherited w); cbn; lra.
Qed.

Lemma plain_without_constructor (kws : list jsstring) :
  Forall plain kws -> ~ In CONSTRUCTOR kws ->
  forall k, In k kws -> inherited k = true -> k = PROTO.
Proof.
  intros Hpl Hc k Hk Hi. rewrite Forall_forall in Hpl.
  destruct (Hpl k Hk Hi) as [-> | ->]; [contradiction | reflexivity].
Qed.

Lemma tfidf_similarity_nonneg
    (kws1 kws2 : list jsstring) (df : object) (n : nat) :
  Forall plain kws1 -> Forall plain kws2 ->
  exists r,
    cosineSimilarity (calculateTFIDF kws1 df n) (calculateTFIDF kws2 df n)
    = Num r /\ 0 <= r.
Proof.
  intros H1 H2.
  destruct (in_dec (list_eq_dec N.eq_dec) CONSTRUCTOR kws1) as [C1|C1].
  { exists 0. split; [|lra]. apply cosine_falsy_l. intros w Hw.
    apply (poisoned_lookup kws1 kws2 df n w H2 C1). left. exact Hw. }
  destruct (in_dec (list_eq_dec N.eq_dec) CONSTRUCTOR kws2) as [C2|C2].
  { exists 0. split; [|lra]. apply cosine_falsy_r. intros w Hw.
    apply (poisoned_lookup kws2 kws1 df n w H1 C2). right. exact Hw. }
  apply cosine_nonneg_numeric.
  - intros w Hw. apply in_allWordsOf in Hw.
    destruct Hw as [Hk|Hk]; split.
    + apply own_lookup_numeric, Hk.
    + destruct (foreign_lookup kws2 kws1 df n w H1 Hk) as [H|[-> Hin]];
        [exact H | contradiction].
    + destruct (foreign_lookup kws1 kws2 df n w H2 Hk) as [H|[-> Hin]];
        [exact H | contradiction].
    + apply own_lookup_numeric, Hk.
  - intros w _.
    destruct (tfidf_coord_factor kws1 df n w
                (plain_without_constructor kws1 H1 C1)) as (t1 & Ht1 & ->).
    destruct (tfidf_coord_factor kws2 df n w
                (plain_without_constructor kws2 H2 C2)) as (t2 & Ht2 & ->).
    replace (t1 * idf_value df n w * (t2 * idf_value df n w))
      with ((t1 * t2) * (idf_value df n w * idf_value df n w)) by ring.
    apply Rmult_le_pos; [apply Rmult_le_pos; assumption|].
    pose proof (Rle_0_sqr (idf_value df n w)) as Hsq. exact Hsq.
Qed.

Lemma scores_similarity_nonneg now ctx h sessions x :
  In x (scoresArray now ctx h sessions) ->
  exists r, similarity x = Num r /\ 0 <= r.
Proof.
  unfold scoresArray. intros Hin.
  apply in_map_from in Hin. destruct Hin as (k & s & Hk & ->).
  cbn [similarity scoreSession].
  apply tfidf_similarity_nonneg.
  - apply contextKeywordsOf_plain.
  - apply nth_keywords_plain.
Qed.

(** X8.  Whatever the corpus and the context, the similarity reported for a
    ranked session is a number, never NaN, and it is not negative. *)
Theorem ranked_similarity_number now ctx sessions h x :
  In x (fst (calculateRelevanceScores now ctx sessions h)) ->
  exists r, similarity x = Num r /\ 0 <= r.
Proof.
  intros Hin. apply ranked_in_scores in Hin.
  eapply scores_similarity_nonneg, Hin.
Qed.

Lemma ranked_singleton_in now ctx s h :
  exists x, In x (fst (calculateRelevanceScores now ctx [s] h))
            /\ session x = s.
Proof.
  destruct (scoresArray_singleton_head now ctx s h) as (x & Hx & Hs).
  exists x. rewrite ranking_singleton, Hx. split; [left; reflexivity | exact Hs].
Qed.

Lemma ranked_similarity_number_witness :
  exists x r,
    In x (fst (calculateRelevanceScores 0 ctx_auth [0%nat]
                 (heap_of [bareSession (Some 0%Z) None])))
    /\ similarity x = Num r /\ 0 <= r.
Proof.
  destruct (ranked_singleton_in 0 ctx_auth 0%nat
              (heap_of [bareSession (Some 0%Z) None])) as (x & Hin & _).
  destruct (ranked_similarity_number _ _ _ _ _ Hin) as (r & Hr).
  exists x, r. split; [exact Hin | exact Hr].
Defined.

Lemma timeWeight_nonneg (now t : Z) :
  exists w, computeTimeWeight now (Some t) = Num w /\ 0 <= w.
Proof.
  rewrite TimeDecay.computeTimeWeight_parsed. eexists. split; [reflexivity|].
  destruct (Rlt_dec (hoursSince now t) 24) as [Hlt|Hge].
  - lra.
  - left. apply exp_pos.
Qed.

Lemma scores_score_range now ctx h sessions x :
  In x (scoresArray now ctx h sessions) ->
  (date (h (session x)) = None -> score x = NaN)
  /\ (forall t, date (h (session x)) = Some t ->
                exists r, score x = Num r /\ 0 <= r <= 1).
Proof.
  intros Hin. split.
  - intros Hd. apply (score_without_date now ctx h sessions x Hin Hd).
  - intros t Hd.
    destruct (scores_components now ctx h sessions x Hin)
      as (_ & Htw & Hb & _ & Hsc).
    destruct (scores_similarity_nonneg now ctx h sessions x Hin)
      as (s & Hs & Hs0).
    destruct (timeWeight_nonneg now t) as (w & Hw & Hw0).
    unfold preClampScore in *. rewrite Hsc, Hs, Htw, Hb, Hd, Hw.
    destruct (hasConversations (h (session x)));
      rewrite finalScore_num, js_min_num;
      (eexists; split; [reflexivity|]; split;
       [apply Rmin_glb; lra | apply Rmin_r]).
Qed.

(** X9.  Scores of the ranking: the score of a ranked session is NaN when its
    date does not parse; otherwise it is a number that is at least 0 and,
    by the clamp [Math.min(finalScore, 1.0)], at most 1. *)
Theorem ranked_score_clamped now ctx sessions h x :
  In x (fst (calculateRelevanceScores now ctx sessions h)) ->
  (date (h (session x)) = None -> score x = NaN)
  /\ (forall t, date (h (session x)) = Some t ->
                exists r, score x = Num r /\ 0 <= r <= 1).
Proof.
  intros Hin. apply ranked_in_scores in Hin.
  apply (scores_score_range now ctx h sessions x Hin).
Qed.

Lemma ranked_score_clamped_witness :
  (exists x,
     In x (fst (calculateRelevanceScores 0 ctx_auth [0%nat]
                  (heap_of [bareSession None None])))
     /\ score x = NaN)
  /\ (exists x r,
        In x (fst (calculateRelevanceScores 0 ctx_auth [0%nat]
                     (heap_of [bareSession (Some 0%Z) None])))
        /\ score x = Num r /\ 0 <= r <= 1).
Proof.
  split.
  - destruct (ranked_singleton_in 0 ctx_auth 0%nat
                (heap_of [bareSession None None])) as (x & Hin & Hs).
    exists x. split; [exact Hin|].
    apply (proj1 (ranked_score_clamped _ _ _ _ _ Hin)).
    rewrite Hs. reflexivity.
  - destruct (ranked_singleton_in 0 ctx_auth 0%nat
                (heap_of [bareSession (Some 0%Z) None])) as (x & Hin & Hs).
    assert (Hd : date (heap_of [bareSession (Some 0%Z) None] (session x))
                 = Some 0%Z) by (rewrite Hs; reflexivity).
    destruct (proj2 (ranked_score_clamped _ _ _ _ _ Hin) 0%Z Hd) as (r & Hr).
    exists x, r. split; [exact Hin | exact Hr].
Defined.

(** X10.  Recency inside each regime, and the jump between them: of two
    sessions both younger than 24 hours, or both at least 24 hours old,
    the more recent one never has the smaller time weight; but a session
    exactly 24 hours old has a strictly larger time weight than any
    session between 4 and 24 hours old. *)
Theorem time_weight_order (now t1 t2 : Z) :
  (t1 <= t2)%Z ->
  exists w1 w2 w24,
    computeTimeWeight now (Some t1) = Num w1
    /\ computeTimeWeight now (Some t2) = Num w2
    /\ computeTimeWeight now (Some (now - msPerDay)%Z) = Num w24
    /\ (hoursSince now t1 < 24 -> w1 <= w2)
    /\ (24 <= hoursSince now t2 -> w1 <= w2)
    /\ (4 <= hoursSince now t2 < 24 -> w2 < w24).
Proof.
  intros Hle. apply IZR_le in Hle.
  rewrite !TimeDecay.computeTimeWeight_parsed.
  do 3 eexists. split; [reflexivity|]. split; [reflexivity|].
  split; [reflexivity|].
  rewrite (TimeDecay.hoursSince_shift now msPerDay).
  assert (H12 : hoursSince now t2 <= hoursSince now t1)
    by (unfold hoursSince, msPerHour; lra).
  repeat split.
  - intros H1.
    destruct (Rlt_dec (hoursSince now t1) 24); [|contradiction].
    destruct (Rlt_dec (hoursSince now t2) 24); [lra | exfalso; lra].
  - intros H2.
    destruct (Rlt_dec (hoursSince now t2) 24); [exfalso; lra|].
    destruct (Rlt_dec (hoursSince now t1) 24); [exfalso; lra|].
    destruct (Req_dec_T (hoursSince now t1) (hoursSince now t2)) as [-> | Hne];
      [lra|].
    left. apply exp_increasing. lra.
  - intros [H4 H24].
    destruct (Rlt_dec (hoursSince now t2) 24); [|contradiction].
    unfold msPerDay, msPerHour.
    destruct (Rlt_dec (86400000 / 3600000) 24); [exfalso; lra|].
    replace (- (86400000 / 3600000 / 24) / 14) with (- 1 / 14) by lra.
    pose proof (exp_ineq1_le (- 1 / 14)). lra.
Qed.

Lemma time_weight_order_witness :
  exists w1 w2 w24,
    computeTimeWeight (30 * 3600000) (Some 0%Z) = Num w1
    /\ computeTimeWeight (30 * 3600000) (Some (10 * 3600000)%Z) = Num w2
    /\ computeTimeWeight (30 * 3600000)
         (Some (30 * 3600000 - msPerDay)%Z) = Num w24
    /\ (hoursSince (30 * 3600000) 0 < 24 -> w1 <= w2)
    /\ (24 <= hoursSince (30 * 3600000) (10 * 3600000) -> w1 <= w2)
    /\ (4 <= hoursSince (30 * 3600000) (10 * 3600000) < 24 -> w2 < w24).
Proof.
  apply (time_weight_order (30 * 3600000) 0 (10 * 3600000)). lia.
Defined.

(* ================================================================= *)
(** ** What tokens are made of *)

Lemma split_on_no_sep (sep : N) (s : jsstring) :
  Forall (Forall (fun c => c <> sep)) (split_on sep s).
Proof.
  induction s as [|c r IH]; cbn [split_on].
  - repeat constructor.
  - destruct (c =? sep)%N eqn:E.
    + constructor; [constructor | exact IH].
    + apply N.eqb_neq in E.
      destruct (split_on sep r) as [|w ws].
      * repeat constructor. exact E.
      * inversion IH; subst. constructor; [constructor|]; assumption.
Qed.

Lemma split_separators_no_sep (s : jsstring) :
  forall in_sep,
    Forall (Forall (fun c => is_separator c = false))
           (split_separators in_sep s).
Proof.
  induction s as [|c r IH]; intros in_sep; cbn [split_separators].
  - repeat constructor.
  - destruct (is_separator c) eqn:E.
    + destruct in_sep; [apply IH|]. constructor; [constructor | apply IH].
    + specialize (IH false).
      destruct (split_separators false r) as [|w ws].
      * repeat constructor. exact E.
      * inversion IH; subst. constructor; [constructor|]; assumption.
Qed.

Lemma collapse_spaces_units (s : jsstring) :
  forall in_run,
    Forall (fun c => is_space c = true \/ token_unit c = true) s ->
    Forall (fun c => c = SPACE \/ token_unit c = true)
           (collapse_spaces in_run s).
Proof.
  induction s as [|c r IH]; intros in_run H; cbn [collapse_spaces];
    [constructor|].
  inversion H as [|? ? Hc Hr]; subst.
  destruct (is_space c) eqn:E.
  - destruct in_run; [apply IH, Hr|]. constructor; [left; reflexivity|].
    apply IH, Hr.
  - constructor; [|apply IH, Hr].
    destruct Hc as [Hc|Hc]; [congruence | right; exact Hc].
Qed.

Lemma kept_unit (c : N) :
  is_upper c = false ->
  (is_word c || is_space c || is_hangul c) = true ->
  is_space c = true \/ token_unit c = true.
Proof.
  intros Hu H. unfold is_word in H. rewrite Hu in H.
  unfold token_unit.
  destruct (is_space c); [left; reflexivity | right].
  destruct (is_digit c), (is_lower c), (c =? 95)%N, (is_hangul c);
    cbn in *; congruence.
Qed.

(** X11.  Tokens of the text tokenizer: at least two code units, no stopword,
    not made of digits only, and nothing but [[a-z0-9_]] and Hangul
    syllables (so no white space, no punctuation, no upper case). *)
Theorem extractKeywords_tokens (text : option jsstring) (w : jsstring) :
  In w (extractKeywords text) ->
  (2 <= len w)%nat /\ is_stopword w = false /\ all_digits w = false
  /\ Forall (fun c => token_unit c = true) w.
Proof.
  intros Hin.
  destruct (extractKeywords_filtered text w Hin) as (H1 & H2 & H3).
  repeat split; try assumption.
  destruct text as [[|c t]|]; try (destruct Hin).
  unfold extractKeywords in Hin. apply filter_In in Hin.
  destruct Hin as [Hin _].
  set (normalized :=
         trim (collapse_spaces false
                 (List.map (fun c => if is_word c || is_space c || is_hangul c
                                     then c else SPACE)
                           (toLowerCase (c :: t))))) in *.
  assert (Hn : Forall (fun c => c = SPACE \/ token_unit c = true) normalized).
  { apply trim_Forall, collapse_spaces_units, Forall_map.
    eapply Forall_impl; [|apply toLowerCase_lowercase].
    intros a Ha. cbv beta.
    destruct (is_word a || is_space a || is_hangul a) eqn:E.
    - apply kept_unit; assumption.
    - left. reflexivity. }
  pose proof (split_on_Forall _ SPACE normalized Hn) as Hp.
  pose proof (split_on_no_sep SPACE normalized) as Hs.
  rewrite Forall_forall in Hp, Hs.
  specialize (Hp w Hin). specialize (Hs w Hin).
  rewrite Forall_forall in *. intros a Ha.
  destruct (Hp a Ha) as [->|Hu]; [|exact Hu].
  exfalso. apply (Hs SPACE Ha). reflexivity.
Qed.

Lemma extractKeywords_tokens_witness :
  (2 <= len (str "css"))%nat /\ is_stopword (str "css") = false
  /\ all_digits (str "css") = false
  /\ Forall (fun c => token_unit c = true) (str "css").
Proof.
  apply (extractKeywords_tokens (Some (str "Fixed the CSS layout bug!"))).
  vm_compute. right. left. reflexivity.
Defined.

Lemma toLowerCase_idempotent (s : jsstring) :
  toLowerCase (toLowerCase s) = toLowerCase s.
Proof.
  pose proof (toLowerCase_lowercase s) as H.
  induction (toLowerCase s) as [|c r IH]; [reflexivity|].
  inversion H as [|? ? Hc Hr]; subst.
  cbn [toLowerCase List.map]. rewrite Hc. f_equal. apply IH, Hr.
Qed.

(** X12.  The text tokenizer ignores the case of Basic Latin letters. *)
Theorem extractKeywords_ignores_case (t : jsstring) :
  extractKeywords (Some (toLowerCase t)) = extractKeywords (Some t).
Proof.
  destruct t as [|c t]; [reflexivity|].
  assert (H : toLowerCase (toLowerCase (c :: t)) = toLowerCase (c :: t))
    by apply toLowerCase_idempotent.
  change (toLowerCase (c :: t))
    with ((if is_upper c then (c + 32)%N else c) :: toLowerCase t) in *.
  unfold extractKeywords. rewrite H. reflexivity.
Qed.

Lemma strip_extension_Forall (P : N -> Prop) (s : jsstring) :
  Forall P s -> Forall P (strip_extension s).
Proof.
  induction s as [|c r IH]; intros H; cbn [strip_extension]; [constructor|].
  inversion H; subst.
  destruct ((c =? DOT)%N && negb (Nat.eqb (len r) 0)
            && forallb (fun d => negb (d =? DOT)%N) r); auto.
Qed.

Lemma camel_split_Forall (P : N -> Prop) :
  P SPACE -> forall n s, (List.length s <= n)%nat ->
                         Forall P s -> Forall P (camel_split s).
Proof.
  intros Hsp. induction n as [|n IH]; intros s Hlen H.
  - destruct s; [constructor | cbn in Hlen; lia].
  - destruct s as [|a [|b r']]; cbn [camel_split]; try exact H.
    inversion H as [|? ? Ha Hr]; subst.
    inversion Hr as [|? ? Hb Hr']; subst.
    cbn [List.length] in Hlen.
    destruct (is_lower a && is_upper b).
    + repeat constructor; try assumption. apply IH; [lia | exact Hr'].
    + constructor; [exact Ha|].
      apply (IH (b :: r')); [cbn [List.length]; lia | exact Hr].
Qed.

Lemma toLowerCase_Forall (P : N -> Prop) (s : jsstring) :
  (forall c, is_upper c = true -> P (c + 32)%N) ->
  Forall P s -> Forall P (toLowerCase s).
Proof.
  intros Hup H. unfold toLowerCase. apply Forall_map.
  eapply Forall_impl; [|exact H]. intros c Hc. cbv beta.
  destruct (is_upper c) eqn:E; [apply Hup, E | exact Hc].
Qed.

Lemma upper_shift_not_slash (c : N) :
  is_upper c = true -> (c + 32 <> SLASH /\ c + 32 <> BACKSLASH)%N.
Proof.
  unfold is_upper, between, SLASH, BACKSLASH. intros H.
  apply andb_true_iff in H. destruct H as [H1 H2].
  apply N.leb_le in H1. apply N.leb_le in H2. lia.
Qed.

(** X13.  Tokens of the path tokenizer hold no path separator, no hyphen, no
    underscore, no white space and no upper-case letter. *)
Theorem extractPathKeywords_tokens (filePath : option jsstring) (w : jsstring) :
  In w (extractPathKeywords filePath) ->
  Forall (fun c => c <> SLASH /\ c <> BACKSLASH
                   /\ is_separator c = false /\ is_upper c = false) w.
Proof.
  intros Hin.
  pose proof (extractPathKeywords_lowercase filePath) as Hlow.
  rewrite Forall_forall in Hlow. specialize (Hlow w Hin).
  destruct filePath as [[|c t]|]; try (destruct Hin).
  unfold extractPathKeywords in Hin. apply in_flat_map in Hin.
  destruct Hin as (part & Hpart & Hw).
  apply filter_In in Hpart. destruct Hpart as [Hpart _].
  apply in_map_iff in Hpart. destruct Hpart as (seg & <- & Hseg).
  apply filter_In in Hw. destruct Hw as [Hw _].
  set (p := List.map (fun c => if (c =? BACKSLASH)%N then SLASH else c)
                     (c :: t)) in *.
  assert (Hp : Forall (fun c => c <> BACKSLASH) p).
  { apply Forall_map, Forall_forall. intros a _. cbv beta.
    destruct (a =? BACKSLASH)%N eqn:E; [discriminate|].
    apply N.eqb_neq, E. }
  pose proof (split_on_Forall _ SLASH p Hp) as H1.
  pose proof (split_on_no_sep SLASH p) as H2.
  rewrite Forall_forall in H1, H2.
  specialize (H1 seg Hseg). specialize (H2 seg Hseg).
  assert (Hseg' : Forall (fun c => c <> SLASH /\ c <> BACKSLASH) seg).
  { rewrite Forall_forall in *. intros a Ha. split; [apply H2 | apply H1]; exact Ha. }
  assert (Hcs : Forall (fun c => c <> SLASH /\ c <> BACKSLASH)
                       (toLowerCase (camel_split (strip_extension seg)))).
  { assert (Hsp : SPACE <> SLASH /\ SPACE <> BACKSLASH)
      by (split; intros H; vm_compute in H; discriminate).
    apply toLowerCase_Forall; [apply upper_shift_not_slash|].
    apply (camel_split_Forall _ Hsp (List.length (strip_extension seg)));
      [lia | apply strip_extension_Forall, Hseg']. }
  pose proof (split_separators_Forall _ _ false Hcs) as H3.
  pose proof (split_separators_no_sep
                (toLowerCase (camel_split (strip_extension seg))) false) as H4.
  rewrite Forall_forall in H3, H4.
  specialize (H3 w Hw). specialize (H4 w Hw).
  unfold lowercase in Hlow.
  rewrite Forall_forall in *. intros a Ha.
  destruct (H3 a Ha) as [Hs Hb].
  repeat split; auto.
Qed.

Lemma extractPathKeywords_tokens_witness :
  Forall (fun c => c <> SLASH /\ c <> BACKSLASH
                   /\ is_separator c = false /\ is_upper c = false)
         (str "handle").
Proof.
  apply (extractPathKeywords_tokens
           (Some (str "C:\src\handleUserLogin.test.js"))).
  vm_compute. do 2 right. left. reflexivity.
Defined.

(* ================================================================= *)
(** ** The selection of the SessionStart hook *)

Lemma firstn_nil_iff {A} (n : nat) (l : list A) :
  (0 < n)%nat -> (firstn n l = [] <-> l = []).
Proof.
  intros Hn. destruct n; [lia|]. destruct l; cbn; split; congruence.
Qed.

Lemma firstn_incl {A} (n : nat) (l : list A) : incl (firstn n l) l.
Proof.
  revert l. induction n as [|n IH]; intros [|x r]; cbn [firstn];
    intros z Hz; try (destruct Hz; fail).
  destruct Hz as [<-|Hz]; [left; reflexivity | right; apply IH, Hz].
Qed.

Lemma relevantSessionsOf_basic (ranked : list Scored) :
  (List.length (relevantSessionsOf ranked) <= 5)%nat
  /\ incl (relevantSessionsOf ranked) ranked
  /\ (relevantSessionsOf ranked = [] -> ranked = []).
Proof.
  unfold relevantSessionsOf, MAX_SESSIONS_TO_SHOW.
  set (F := filter (fun item => js_ge (score item) MIN_RELEVANCE_SCORE) ranked).
  assert (HFi : incl (firstn 5 F) ranked).
  { intros x Hx. apply firstn_incl in Hx. apply filter_In in Hx. apply Hx. }
  destruct (firstn 5 F) as [|y R] eqn:E.
  - destruct ranked as [|x r]; cbn [List.length Nat.eqb Nat.ltb Nat.leb andb app].
    + repeat split; [cbn; lia | intros z []].
    + repeat split.
      * pose proof (firstn_le_length 3 (x :: r)). lia.
      * apply firstn_incl.
      * intros H. cbn in H. discriminate.
  - assert (Hlen : (List.length (y :: R) <= 5)%nat)
      by (rewrite <- E; apply firstn_le_length).
    cbn [List.length Nat.eqb andb]. repeat split.
    + exact Hlen.
    + exact HFi.
    + discriminate.
Qed.

(** X14.  The selection shown at session start: at most five elements, all
    taken from the ranking; it is empty only when the ranking is; when
    some element reaches the threshold 0.1 every selected element does,
    and when none does the selection is the first three of the ranking. *)
Theorem relevantSessionsOf_spec (ranked : list Scored) :
  (List.length (relevantSessionsOf ranked) <= 5)%nat
  /\ incl (relevantSessionsOf ranked) ranked
  /\ (relevantSessionsOf ranked = [] <-> ranked = [])
  /\ ((exists x, In x ranked /\ js_ge (score x) MIN_RELEVANCE_SCORE = true) ->
      Forall (fun x => js_ge (score x) MIN_RELEVANCE_SCORE = true)
             (relevantSessionsOf ranked))
  /\ ((forall x, In x ranked -> js_ge (score x) MIN_RELEVANCE_SCORE = false) ->
      relevantSessionsOf ranked = firstn 3 ranked).
Proof.
  unfold relevantSessionsOf, MAX_SESSIONS_TO_SHOW.
  set (p := fun item => js_ge (score item) MIN_RELEVANCE_SCORE).
  set (F := filter p ranked).
  assert (HF : firstn 5 F = [] <-> F = []) by (apply firstn_nil_iff; lia).
  assert (HFin : forall x, In x (firstn 5 F) -> In x ranked /\ p x = true).
  { intros x Hx. apply firstn_incl in Hx. apply filter_In in Hx. exact Hx. }
  destruct (firstn 5 F) as [|y R] eqn:E.
  - assert (HF0 : F = []) by (apply HF; reflexivity).
    cbn [List.length Nat.eqb andb app].
    destruct ranked as [|x r]; cbn [List.length Nat.ltb Nat.leb].
    + repeat split; try (intros _; reflexivity); cbn; try lia; auto.
      intros y [].
    + repeat split.
      * pose proof (firstn_le_length 3 (x :: r)). lia.
      * apply firstn_incl.
      * intros H. cbn in H. discriminate.
      * discriminate.
      * intros (z & Hz & Hpz). exfalso.
        assert (Hzf : In z F) by (apply filter_In; auto).
        rewrite HF0 in Hzf. destruct Hzf.
  - cbn [List.length Nat.eqb andb].
    assert (Hlen : (List.length (y :: R) <= 5)%nat)
      by (rewrite <- E; apply firstn_le_length).
    repeat split.
    + exact Hlen.
    + intros z Hz. apply (HFin z Hz).
    + discriminate.
    + intros ->. subst F. cbn in E. discriminate.
    + intros _. apply Forall_forall. intros z Hz. apply (HFin z Hz).
    + intros Hnone. exfalso.
      destruct (HFin y (or_introl eq_refl)) as [Hy Hpy].
      unfold p in Hpy. rewrite (Hnone y Hy) in Hpy. discriminate.
Qed.

(* ================================================================= *)
(** ** The relevance bar *)

Lemma Int_part_IZR (k : Z) : Int_part (IZR k) = k.
Proof. symmetry. apply Int_part_spec. lra. Qed.

Lemma toInteger_IZR (k : Z) : toInteger (IZR k) = k.
Proof.
  unfold toInteger. destruct (Rle_dec 0 (IZR k)); [apply Int_part_IZR|].
  rewrite <- opp_IZR, Int_part_IZR. lia.
Qed.

Lemma length_concat_repeat (c : N) (n : nat) :
  List.length (List.concat (repeat [c] n)) = n.
Proof. induction n as [|n IH]; cbn; [|rewrite IH]; reflexivity. Qed.

Lemma repeat_string_IZR (c : N) (k : Z) :
  repeat_string [c] (Num (IZR k))
  = if (k <? 0)%Z then None
    else Some (List.concat (repeat [c] (Z.to_nat k))).
Proof. unfold repeat_string. cbn [toNumber]. rewrite toInteger_IZR. reflexivity. Qed.

Lemma formatRelevanceBar_num (s : R) :
  formatRelevanceBar (Num s)
  = let k := Int_part (s * 5 + 1 / 2) in
    if (k <? 0)%Z then None
    else if (5 - k <? 0)%Z then None
         else Some (List.concat (repeat FILLED (Z.to_nat k))
                    ++ List.concat (repeat HOLLOW (Z.to_nat (5 - k)))).
Proof.
  unfold formatRelevanceBar, js_round, FILLED, HOLLOW.
  cbn [js_mul toNumber js_sub]. cbv zeta.
  rewrite <- minus_IZR, !repeat_string_IZR.
  destruct (Int_part (s * 5 + 1 / 2) <? 0)%Z; [reflexivity|].
  destruct (5 - Int_part (s * 5 + 1 / 2) <? 0)%Z; reflexivity.
Qed.

Lemma round_range (s : R) :
  0 <= s <= 1 -> (0 <= Int_part (s * 5 + 1 / 2) <= 5)%Z.
Proof.
  intros [H0 H1]. destruct (base_Int_part (s * 5 + 1 / 2)) as [Hle Hgt].
  split.
  - assert (IZR (-1) < IZR (Int_part (s * 5 + 1 / 2))) by lra.
    apply lt_IZR in H. lia.
  - assert (IZR (Int_part (s * 5 + 1 / 2)) < IZR 6) by lra.
    apply lt_IZR in H. lia.
Qed.

Lemma formatRelevanceBar_in_range (s : R) :
  0 <= s <= 1 ->
  exists bar, formatRelevanceBar (Num s) = Some bar /\ len bar = 5%nat.
Proof.
  intros Hs. pose proof (round_range s Hs) as [Hk0 Hk5].
  rewrite formatRelevanceBar_num. cbv zeta.
  destruct (Int_part (s * 5 + 1 / 2) <? 0)%Z eqn:E1;
    [apply Z.ltb_lt in E1; lia|].
  destruct (5 - Int_part (s * 5 + 1 / 2) <? 0)%Z eqn:E2;
    [apply Z.ltb_lt in E2; lia|].
  eexists. split; [reflexivity|].
  unfold len, FILLED, HOLLOW.
  rewrite length_app, !length_concat_repeat. lia.
Qed.

(** X15.  The relevance bar: a score between 0 and 1 gives five symbols, of
    which [round (5 * score)] are filled; the score NaN gives the empty
    bar; a score of 1.1 or more makes [repeat] raise a RangeError. *)
Theorem formatRelevanceBar_spec :
  (forall s, 0 <= s <= 1 ->
     exists bar,
       formatRelevanceBar (Num s) = Some bar /\ len bar = 5%nat
       /\ bar = List.concat (repeat FILLED (Z.to_nat (Int_part (s * 5 + 1 / 2))))
                ++ List.concat
                     (repeat HOLLOW
                        (5 - Z.to_nat (Int_part (s * 5 + 1 / 2)))))
  /\ formatRelevanceBar NaN = Some []
  /\ (forall s, 1.1 <= s -> formatRelevanceBar (Num s) = None).
Proof.
  split; [|split].
  - intros s Hs. pose proof (round_range s Hs) as [Hk0 Hk5].
    destruct (formatRelevanceBar_in_range s Hs) as (bar & Hbar & Hlen).
    exists bar. split; [exact Hbar|]. split; [exact Hlen|].
    rewrite formatRelevanceBar_num in Hbar. cbv zeta in Hbar.
    destruct (Int_part (s * 5 + 1 / 2) <? 0)%Z; [discriminate|].
    destruct (5 - Int_part (s * 5 + 1 / 2) <? 0)%Z; [discriminate|].
    injection Hbar as <-.
    replace (5 - Z.to_nat (Int_part (s * 5 + 1 / 2)))%nat
      with (Z.to_nat (5 - Int_part (s * 5 + 1 / 2))) by lia.
    reflexivity.
  - reflexivity.
  - intros s Hs. rewrite formatRelevanceBar_num. cbv zeta.
    destruct (base_Int_part (s * 5 + 1 / 2)) as [Hle Hgt].
    assert (H : IZR 5 < IZR (Int_part (s * 5 + 1 / 2))) by lra.
    apply lt_IZR in H.
    destruct (Int_part (s * 5 + 1 / 2) <? 0)%Z; [reflexivity|].
    destruct (5 - Int_part (s * 5 + 1 / 2) <? 0)%Z eqn:E; [reflexivity|].
    apply Z.ltb_ge in E. lia.
Qed.

Lemma ranking_reads_only_perm now ctx sessions h :
  Permutation
    (List.map session (fst (calculateRelevanceScores now ctx sessions h)))
    sessions.
Proof.
  rewrite calculateRelevanceScores_run. cbn [fst].
  rewrite <- (scoresArray_session now ctx h sessions) at 2.
  apply Permutation_map, sort_perm.
Qed.

(** X16.  What the hook shows: for a corpus that is not empty the selection
    made from its ranking is not empty either and has at most five
    elements; every selected element refers to a session of the corpus,
    and rendering its relevance bar never raises: the bar has five
    symbols, or none when the session's date does not parse. *)
Theorem hook_selection_renders now ctx sessions h :
  let shown :=
    relevantSessionsOf (fst (calculateRelevanceScores now ctx sessions h)) in
  (sessions <> [] -> shown <> [])
  /\ (List.length shown <= 5)%nat
  /\ forall x, In x shown ->
       In (session x) sessions
       /\ exists bar,
            formatRelevanceBar (score x) = Some bar
            /\ (len bar = 5%nat
                \/ (bar = [] /\ date (h (session x)) = None)).
Proof.
  intros shown. unfold shown.
  destruct (relevantSessionsOf_basic
              (fst (calculateRelevanceScores now ctx sessions h)))
    as (Hlen & Hincl & Hnil).
  split; [|split].
  - intros Hne Hs. apply Hnil in Hs.
    pose proof (ranking_reads_only_perm now ctx sessions h) as Hp.
    rewrite Hs in Hp. cbn in Hp. apply Permutation_nil in Hp. contradiction.
  - exact Hlen.
  - intros x Hx. apply Hincl in Hx. apply ranked_in_scores in Hx.
    destruct (scores_components now ctx h sessions x Hx) as (Hs & _).
    split; [exact Hs|].
    destruct (scores_score_range now ctx h sessions x Hx) as [Hnone Hsome].
    destruct (date (h (session x))) as [t|] eqn:Hd.
    + destruct (Hsome t eq_refl) as (r & Hr & Hr01).
      destruct (formatRelevanceBar_in_range r) as (bar & Hbar & Hl); [lra|].
      exists bar. rewrite Hr. auto.
    + exists []. rewrite (Hnone eq_refl). split; [reflexivity | auto].
Qed.

(* ================================================================= *)
(** ** The keywords a session is stored with *)

Lemma NoDup_firstn {A} (n : nat) (l : list A) : NoDup l -> NoDup (firstn n l).
Proof.
  revert l. induction n as [|n IH]; intros [|x r] H; cbn [firstn];
    try constructor.
  - inversion H; subst. intros Hx. apply firstn_incl in Hx. contradiction.
  - inversion H; subst. apply IH. assumption.
Qed.

Lemma extractKeywords_token_ok (text : option jsstring) (w : jsstring) :
  In w (extractKeywords text) ->
  (2 <= len w)%nat /\ is_stopword w = false /\ lowercase w.
Proof.
  intros H. destruct (extractKeywords_filtered text w H) as (H1 & H2 & _).
  pose proof (extractKeywords_lowercase text) as Hl.
  rewrite Forall_forall in Hl. auto.
Qed.

Lemma extractPathKeywords_token_ok (filePath : option jsstring) (w : jsstring) :
  In w (extractPathKeywords filePath) ->
  (2 <= len w)%nat /\ is_stopword w = false /\ lowercase w.
Proof.
  intros H. pose proof (extractPathKeywords_filtered filePath w H) as Hf.
  unfold path_word_ok in Hf. apply andb_true_iff in Hf. destruct Hf as [H1 H2].
  apply Nat.ltb_lt in H1. apply negb_true_iff in H2.
  pose proof (extractPathKeywords_lowercase filePath) as Hl.
  rewrite Forall_forall in Hl. repeat split; [lia | exact H2 | auto].
Qed.

(** X17.  The keywords [summary-hook.js] stores with a session: at most 50,
    none twice, and each one a token that passed a tokenizer's filter (at
    least two code units, no stopword, no upper-case letter). *)
Theorem stored_keywords_spec
    (observations : option (list Observation))
    (conversations : option (list Conversation)) :
  let keywords := SummaryHook.extractSessionKeywords observations conversations in
  (List.length keywords <= 50)%nat
  /\ NoDup keywords
  /\ forall w, In w keywords ->
       (2 <= len w)%nat /\ is_stopword w = false /\ lowercase w.
Proof.
  unfold SummaryHook.extractSessionKeywords. cbv zeta.
  split; [apply firstn_le_length|]. split; [apply NoDup_firstn, NoDup_unique|].
  intros w Hw. apply firstn_incl in Hw. apply -> in_unique in Hw.
  apply in_app_iff in Hw. destruct Hw as [Hw|Hw]; apply in_flat_map in Hw.
  - destruct Hw as (c & _ & Hw). apply (extractKeywords_token_ok _ _ Hw).
  - destruct Hw as (o & _ & Hw).
    apply in_app_iff in Hw. destruct Hw as [Hw|Hw];
      [apply (extractKeywords_token_ok _ _ Hw)|].
    destruct (details o) as [d|]; [|destruct Hw].
    apply in_app_iff in Hw. destruct Hw as [Hw|Hw].
    + destruct (truthy (file d)); [|destruct Hw].
      apply (extractPathKeywords_token_ok _ _ Hw).
    + destruct (truthy (command d)); [|destruct Hw].
      apply (extractKeywords_token_ok _ _ Hw).
Qed.

(* ================================================================= *)
(** ** The documents of a ranking *)

(** X18.  Keywords of a session record: every keyword is a token that passed a
    tokenizer's filter (at least two code units, no stopword, no
    upper-case letter), and a record without summary, conversations and
    observations has none. *)
Theorem extractSessionKeywords_tokens (s : Session) :
  (forall w, In w (extractSessionKeywords s) ->
             (2 <= len w)%nat /\ is_stopword w = false /\ lowercase w)
  /\ (summary s = None -> conversations s = None -> observations s = None ->
      extractSessionKeywords s = []).
Proof.
  split.
  - unfold extractSessionKeywords. intros w Hw.
    repeat (apply in_app_iff in Hw; destruct Hw as [Hw|Hw]).
    + destruct (truthy (summary s)); [|destruct Hw].
      apply (extractKeywords_token_ok _ _ Hw).
    + destruct (conversations s) as [[|c cs]|]; try (destruct Hw; fail).
      apply in_flat_map in Hw. destruct Hw as (conv & _ & Hw).
      destruct (truthy (message conv)); [|destruct Hw].
      apply (extractKeywords_token_ok _ _ Hw).
    + destruct (observations s) as [obss|]; [|destruct Hw].
      apply in_flat_map in Hw. destruct Hw as (o & _ & Hw).
      repeat (apply in_app_iff in Hw; destruct Hw as [Hw|Hw]).
      * apply (extractKeywords_token_ok _ _ Hw).
      * destruct (details o) as [d|]; [|destruct Hw].
        apply in_app_iff in Hw. destruct Hw as [Hw|Hw].
        -- destruct (truthy (file d)); [|destruct Hw].
           apply (extractPathKeywords_token_ok _ _ Hw).
        -- destruct (truthy (command d)); [|destruct Hw].
           apply (extractKeywords_token_ok _ _ Hw).
      * destruct (context o) as [c|]; [|destruct Hw].
        destruct (truthy (lastUserMessage c)); [|destruct Hw].
        apply (extractKeywords_token_ok _ _ Hw).
  - intros H1 H2 H3. unfold extractSessionKeywords.
    rewrite H1, H2, H3. reflexivity.
Qed.


